(** * paperfilter Session: a shallow embedding of [src/paperfilter/session.cpp]

    The Session wires the packet queue, the packet store, the dissector
    threads, the stream dispatcher, the frame source and the named filter
    groups, and owns the two coalescing host signals (status and log).

    Only [session.cpp] is available.  The collaborators it drives
    (PacketQueue, PacketStore, the result set of a filter group, Packet,
    Layer, Pcap, LogMessage::key) are modelled from the specification and are
    marked as such.  Effects on collaborators that have no state of interest
    here (thread creation and destruction, libuv calls, host callbacks) are
    recorded, in program order, in an event trace. *)

From stdpp Require Import gmap strings list fin_maps pretty.
From Stdlib Require Import ZArith Lia Ascii.

(** ** Machine integers *)

(** [int] is a 32-bit two's-complement integer; [wrap32] is the value an
    arithmetic result takes when it is stored back into an [int]. *)
Definition INT_MIN : Z := (-2147483648)%Z.
Definition INT_MAX : Z := 2147483647%Z.

Definition wrap32 (z : Z) : Z := ((z + 2147483648) `mod` 4294967296 - 2147483648)%Z.

Definition in_int (z : Z) : Prop := (INT_MIN ≤ z ≤ INT_MAX)%Z.

(** ** Collaborators *)

(** Modelled from the spec: Layer (layer.hpp is not available).  A layer has
    a namespace, a display name and a payload; [Layer(ns)] builds a layer of
    namespace [ns] with an empty name and payload. *)
Record Layer := mkLayer {
  layer_ns : string;
  layer_name : string;
  layer_payload : list Byte.byte
}.

(** Modelled from the spec: [Layer::Layer(ns)], [setName], [setPayload]. *)
Module LayerOps.
Definition new (ns : string) : Layer :=
  {| layer_ns := ns; layer_name := ""; layer_payload := [] |}.
Definition setName (name : string) (l : Layer) : Layer :=
  {| layer_ns := layer_ns l; layer_name := name; layer_payload := layer_payload l |}.
Definition setPayload (p : list Byte.byte) (l : Layer) : Layer :=
  {| layer_ns := layer_ns l; layer_name := layer_name l; layer_payload := p |}.
End LayerOps.

(** Modelled from the spec: Packet (packet.hpp is not available).  A packet
    owns an ordered list of layers and the captured bytes. *)
Record Packet := mkPacket {
  pkt_payload : list Byte.byte;
  pkt_layers : list Layer
}.

(** Modelled from the spec: [Packet::payload] and [Packet::addLayer]
    (packet.hpp is not available).  [Session::analyze] calls [addLayer] for
    every packet, and the spec has the Session wrap a packet in the
    namespace layer "if not already"; the test is therefore [addLayer]'s:
    the layer joins the packet's list unless the packet already has a layer
    of its namespace. *)
Module PacketOps.
Definition payload (p : Packet) : list Byte.byte := pkt_payload p.
Definition hasLayer (ns : string) (p : Packet) : bool :=
  existsb (λ l, bool_decide (layer_ns l = ns)) (pkt_layers p).
Definition addLayer (l : Layer) (p : Packet) : Packet :=
  if hasLayer (layer_ns l) p then p
  else {| pkt_payload := pkt_payload p; pkt_layers := pkt_layers p ++ [l] |}.
End PacketOps.

(** Modelled from the spec: PacketQueue (packet_queue.hpp is not available).
    A closable FIFO: [push] appends while the queue is open and is a silent
    no-op after [close]; [pop] hands out the oldest packet, blocks on an open
    empty queue and signals closed on a closed empty one; [close] is
    idempotent. *)
Record PacketQueue := mkQueue {
  q_items : list Packet;
  q_closed : bool
}.

Inductive PopResult :=
| PopItem (p : Packet) (q : PacketQueue)
| PopBlocked
| PopClosed.

(** Modelled from the spec: [PacketQueue::push], [pop], [close]. *)
Module PacketQueueOps.
Definition empty : PacketQueue := {| q_items := []; q_closed := false |}.
Definition push (p : Packet) (q : PacketQueue) : PacketQueue :=
  if q_closed q then q
  else {| q_items := q_items q ++ [p]; q_closed := false |}.
Definition pop (q : PacketQueue) : PopResult :=
  match q_items q with
  | p :: rest => PopItem p {| q_items := rest; q_closed := q_closed q |}
  | [] => if q_closed q then PopClosed else PopBlocked
  end.
Definition close (q : PacketQueue) : PacketQueue :=
  {| q_items := q_items q; q_closed := true |}.
End PacketQueueOps.

(** Modelled from the spec: PacketStore (packet_store.hpp is not available).
    Append-only; sequence numbers are dense and start at 1, so the packet of
    sequence [k] is the [k]-th inserted one and [maxSeq] is their number. *)
Record PacketStore := mkStore {
  st_packets : list Packet
}.

(** Modelled from the spec: [PacketStore::insert], [maxSeq], [get]. *)
Module PacketStoreOps.
Definition empty : PacketStore := {| st_packets := [] |}.
Definition insert (p : Packet) (s : PacketStore) : PacketStore :=
  {| st_packets := st_packets s ++ [p] |}.
Definition maxSeq (s : PacketStore) : Z := Z.of_nat (length (st_packets s)).
Definition get (seq : Z) (s : PacketStore) : option Packet :=
  if (seq <=? 0)%Z then None else st_packets s !! (Z.to_nat seq - 1)%nat.
End PacketStoreOps.

(** Modelled from the spec: SequenceSet, the type of
    [FilterThread::Context::packets] (filter_thread.hpp is not available).
    An ordered set of sequence numbers, kept as a strictly increasing list;
    [get start end] is the ordered list of the members in [start, end). *)
Definition SequenceSet := list Z.

(** Modelled from the spec: the set's [insert], [get(start, end)], [size]. *)
Module SequenceSetOps.
Definition empty : SequenceSet := [].
Fixpoint insert (v : Z) (s : SequenceSet) : SequenceSet :=
  match s with
  | [] => [v]
  | x :: rest =>
      if (v <? x)%Z then v :: x :: rest
      else if (v =? x)%Z then x :: rest
      else x :: insert v rest
  end.
Definition in_range (start end_ : Z) (x : Z) : bool :=
  ((start <=? x) && (x <? end_))%Z.
Definition get (start end_ : Z) (s : SequenceSet) : list Z :=
  List.filter (in_range start end_) s.
Definition size (s : SequenceSet) : Z := Z.of_nat (length s).
End SequenceSetOps.

(** LogMessage as [session.cpp] reads it (log_message.hpp is not
    available): the fields copied into the host object. *)
Inductive Level := LevelDebug | LevelInfo | LevelWarn | LevelError.

Record LogMessage := mkLog {
  level : Level;
  message : string;
  domain : string;
  resourceName : string;
  sourceLine : string;
  lineNumber : Z;
  startPosition : Z;
  endPosition : Z;
  startColumn : Z;
  endColumn : Z
}.

(** Modelled from the spec: Pcap, the frame source (pcap.hpp is not
    available); of its state only whether it is running matters here. *)
Record Pcap := mkPcap {
  pcap_running : bool
}.

(** Modelled from the spec: [Pcap::Pcap], [Pcap::start], [Pcap::stop]. *)
Module PcapOps.
Definition new : Pcap := {| pcap_running := false |}.
Definition start (p : Pcap) : Pcap := {| pcap_running := true |}.
Definition stop (p : Pcap) : Pcap := {| pcap_running := false |}.
End PcapOps.

(** ** Host values *)

(** A script-side object or function is an opaque handle. *)
Definition Handle := nat.

(** An element of the [dissectors] and [stream_dissectors] arrays. *)
Inductive JsValue :=
| JsEmpty
| JsPrimitive
| JsObject (h : Handle).

(** The properties [Session::Session] reads from its option object; [None]
    is a property that is absent, for which [v8pp::get_option] leaves its
    target untouched. *)
Record Options := mkOptions {
  opt_namespace : option string;
  opt_filterScript : option string;
  opt_threads : option Z;
  opt_dissectors : option (list JsValue);
  opt_stream_dissectors : option (list JsValue)
}.

(** The constructor's argument: an empty handle, a value that is not an
    object, or an object. *)
Inductive OptionValue :=
| OptEmpty
| OptNotObject
| OptObject (o : Options).

(** ** Session state *)

Definition Dissector := Handle.

Record DissectorThread := mkDissectorThread {
  dt_dissectors : list Dissector
}.

Record StreamDispatcher := mkStreamDispatcher {
  sd_threads : Z;
  sd_dissectors : list Dissector
}.

(** Address of a [FilterThread::Context] created by [std::make_shared]. *)
Definition addr := nat.

(** [FilterThread::Context], as far as [session.cpp] fills it: the store
    pointer is always the Session's store and both callbacks are fixed. *)
Record FilterThread_Context := mkFilterCtx {
  ctx_filter : string;
  ctx_script : string;
  ctx_packets : SequenceSet
}.

Record FilterThread := mkFilterThread {
  ft_ctx : addr
}.

Record FilterContext := mkFilterContext {
  fc_threads : list FilterThread;
  fc_ctx : addr
}.

(** [Session::Private]. *)
Record Private := mkPrivate {
  queue : PacketQueue;
  store : PacketStore;
  dissectorThreads : list DissectorThread;
  filterThreads : gmap string FilterContext;
  ns : string;
  filterScript : string;
  statusCb : option Handle;
  logCb : option Handle;
  streamDispatcher : option StreamDispatcher;
  pcap : option Pcap;
  recentLogs : gmap string LogMessage;
  capturing : bool;
  threads : Z
}.

(** The two [uv_async_t] handles. *)
Inductive Signal := StatusSignal | LogSignal.

(** The object handed to the log callback: the numeric coordinates are set
    only when they are not negative. *)
Record LogObject := mkLogObject {
  lo_level : string;
  lo_message : string;
  lo_domain : string;
  lo_resourceName : string;
  lo_sourceLine : string;
  lo_lineNumber : option Z;
  lo_startPosition : option Z;
  lo_endPosition : option Z;
  lo_startColumn : option Z;
  lo_endColumn : option Z
}.

(** The object handed to the status callback. *)
Record StatusObject := mkStatusObject {
  so_capturing : bool;
  so_packets : Z;
  so_filtered : gmap string Z
}.

(** Effects outside the Session's own data, in program order. *)
Inductive Event :=
| EvAsyncSend (s : Signal)
| EvUvClose (s : Signal)
| EvLogCall (cb : Handle) (obj : LogObject)
| EvStatusCall (cb : Handle) (obj : StatusObject)
| EvDissectorThreadNew
| EvDissectorThreadsDestroyed (n : nat)
| EvFilterContextNew (a : addr)
| EvFilterThreadNew (a : addr)
| EvFilterContextDestroyed (a : addr) (nthreads : nat)
| EvStreamDispatcherNew (nthreads : Z)
| EvStreamDispatcherDestroyed
| EvPcapNew
| EvPcapDestroyed
| EvPcapStart
| EvPcapStop
| EvQueueClose.

(** The Session together with the free store holding the filter contexts
    and the trace of effects. [next] is the number of contexts allocated so
    far: an allocation is identified by its rank, never by a reused
    address. *)
Record State := mkState {
  d : Private;
  heap : gmap addr FilterThread_Context;
  next : addr;
  trace : list Event
}.

(** Field updates of [Private] and [State]. *)
Definition with_queue (q : PacketQueue) (p : Private) : Private :=
  {| queue := q; store := store p; dissectorThreads := dissectorThreads p;
     filterThreads := filterThreads p; ns := ns p; filterScript := filterScript p;
     statusCb := statusCb p; logCb := logCb p;
     streamDispatcher := streamDispatcher p; pcap := pcap p;
     recentLogs := recentLogs p; capturing := capturing p; threads := threads p |}.

Definition with_store (s : PacketStore) (p : Private) : Private :=
  {| queue := queue p; store := s; dissectorThreads := dissectorThreads p;
     filterThreads := filterThreads p; ns := ns p; filterScript := filterScript p;
     statusCb := statusCb p; logCb := logCb p;
     streamDispatcher := streamDispatcher p; pcap := pcap p;
     recentLogs := recentLogs p; capturing := capturing p; threads := threads p |}.

Definition with_filterThreads (m : gmap string FilterContext) (p : Private) : Private :=
  {| queue := queue p; store := store p; dissectorThreads := dissectorThreads p;
     filterThreads := m; ns := ns p; filterScript := filterScript p;
     statusCb := statusCb p; logCb := logCb p;
     streamDispatcher := streamDispatcher p; pcap := pcap p;
     recentLogs := recentLogs p; capturing := capturing p; threads := threads p |}.

Definition with_statusCb (cb : option Handle) (p : Private) : Private :=
  {| queue := queue p; store := store p; dissectorThreads := dissectorThreads p;
     filterThreads := filterThreads p; ns := ns p; filterScript := filterScript p;
     statusCb := cb; logCb := logCb p;
     streamDispatcher := streamDispatcher p; pcap := pcap p;
     recentLogs := recentLogs p; capturing := capturing p; threads := threads p |}.

Definition with_logCb (cb : option Handle) (p : Private) : Private :=
  {| queue := queue p; store := store p; dissectorThreads := dissectorThreads p;
     filterThreads := filterThreads p; ns := ns p; filterScript := filterScript p;
     statusCb := statusCb p; logCb := cb;
     streamDispatcher := streamDispatcher p; pcap := pcap p;
     recentLogs := recentLogs p; capturing := capturing p; threads := threads p |}.

Definition with_recentLogs (m : gmap string LogMessage) (p : Private) : Private :=
  {| queue := queue p; store := store p; dissectorThreads := dissectorThreads p;
     filterThreads := filterThreads p; ns := ns p; filterScript := filterScript p;
     statusCb := statusCb p; logCb := logCb p;
     streamDispatcher := streamDispatcher p; pcap := pcap p;
     recentLogs := m; capturing := capturing p; threads := threads p |}.

Definition with_capture (src : Pcap) (c : bool) (p : Private) : Private :=
  {| queue := queue p; store := store p; dissectorThreads := dissectorThreads p;
     filterThreads := filterThreads p; ns := ns p; filterScript := filterScript p;
     statusCb := statusCb p; logCb := logCb p;
     streamDispatcher := streamDispatcher p; pcap := Some src;
     recentLogs := recentLogs p; capturing := c; threads := threads p |}.

Definition with_d (p : Private) (st : State) : State :=
  {| d := p; heap := heap st; next := next st; trace := trace st |}.

Definition emit (evs : list Event) (st : State) : State :=
  {| d := d st; heap := heap st; next := next st; trace := trace st ++ evs |}.

(** ** The Session's operations *)

Module Session.
Section Operations.

(** [LogMessage::key()] is not available; the Session only uses it as the
    index of [recentLogs], so it is a parameter of the model. *)
Variable key : LogMessage → string.

(** [Session::Private::Private()]: every container is empty, both
    callbacks are empty handles, [capturing] is false and [threads] is
    left uninitialised (it holds an indeterminate value). *)
Definition Private_new (indeterminate : Z) : Private :=
  {| queue := PacketQueueOps.empty; store := PacketStoreOps.empty;
     dissectorThreads := []; filterThreads := ∅; ns := ""; filterScript := "";
     statusCb := None; logCb := None; streamDispatcher := None; pcap := None;
     recentLogs := ∅; capturing := false; threads := indeterminate |}.

(** [Session::Private::log]. *)
Definition log (msg : LogMessage) (st : State) : State :=
  emit [EvAsyncSend LogSignal]
    (with_d (with_recentLogs (<[key msg := msg]> (recentLogs (d st))) (d st)) st).

Definition level_name (l : Level) : string :=
  match l with
  | LevelDebug => "debug"
  | LevelInfo => "info"
  | LevelWarn => "warn"
  | LevelError => "error"
  end.

Definition if_nonneg (z : Z) : option Z := if (0 <=? z)%Z then Some z else None.

Definition log_object (msg : LogMessage) : LogObject :=
  {| lo_level := level_name (level msg); lo_message := message msg;
     lo_domain := domain msg; lo_resourceName := resourceName msg;
     lo_sourceLine := sourceLine msg;
     lo_lineNumber := if_nonneg (lineNumber msg);
     lo_startPosition := if_nonneg (startPosition msg);
     lo_endPosition := if_nonneg (endPosition msg);
     lo_startColumn := if_nonneg (startColumn msg);
     lo_endColumn := if_nonneg (endColumn msg) |}.

(** The messages one run of the log handler swaps out of [recentLogs], in
    the order the handler walks them. *)
Definition log_batch (st : State) : list LogMessage :=
  (map_to_list (recentLogs (d st))).*2.

(** The handler of [logCbAsync]. *)
Definition logCbAsync_handler (st : State) : State :=
  match logCb (d st) with
  | None => st
  | Some cb =>
      emit ((λ msg, EvLogCall cb (log_object msg)) <$> log_batch st)
        (with_d (with_recentLogs ∅ (d st)) st)
  end.

(** [std::string::c_str()] read as a C string: the characters before the
    first NUL. *)
Fixpoint c_str (s : string) : string :=
  match s with
  | EmptyString => EmptyString
  | String c rest => if Ascii.eqb c Ascii.zero then EmptyString else String c (c_str rest)
  end.

(** One round of the loop over [d->filterThreads] in the status handler:
    [v8pp::set_option(isolate, filtered, pair.first.c_str(), size)] defines
    the property called by the C string it is given. *)
Definition set_filtered (st : State) (filtered : gmap string Z)
    (pair : string * FilterContext) : gmap string Z :=
  match heap st !! fc_ctx pair.2 with
  | Some c => <[c_str pair.1 := SequenceSetOps.size (ctx_packets c)]> filtered
  | None => filtered
  end.

(** The whole loop, the groups walked in the order of the map; [None] when
    some group's context pointer does not point to a live context. *)
Definition filtered_sizes (st : State) : option (gmap string Z) :=
  if bool_decide (map_Forall (λ _ fc, is_Some (heap st !! fc_ctx fc))
                    (filterThreads (d st)))
  then Some (foldl (set_filtered st) ∅ (map_to_list (filterThreads (d st))))
  else None.

(** The handler of [statusCbAsync]. *)
Definition statusCbAsync_handler (st : State) : option State :=
  match statusCb (d st) with
  | None => Some st
  | Some cb =>
      filtered ← filtered_sizes st;
      Some (emit [EvStatusCall cb
                    {| so_capturing := capturing (d st);
                       so_packets := PacketStoreOps.maxSeq (store (d st));
                       so_filtered := filtered |}] st)
  end.

(** [Session::Private::~Private], statement by statement. *)
Definition close_queue (st : State) : State :=
  emit [EvQueueClose]
    (with_d (with_queue (PacketQueueOps.close (queue (d st))) (d st)) st).

Definition clear_dissectorThreads (st : State) : State :=
  {| d := {| queue := queue (d st); store := store (d st);
             dissectorThreads := []; filterThreads := filterThreads (d st);
             ns := ns (d st); filterScript := filterScript (d st);
             statusCb := statusCb (d st); logCb := logCb (d st);
             streamDispatcher := streamDispatcher (d st); pcap := pcap (d st);
             recentLogs := recentLogs (d st); capturing := capturing (d st);
             threads := threads (d st) |};
     heap := heap st; next := next st;
     trace := trace st
              ++ [EvDissectorThreadsDestroyed (length (dissectorThreads (d st)))] |}.

Definition destroy_group_events (groups : list (string * FilterContext)) : list Event :=
  (λ g, EvFilterContextDestroyed (fc_ctx g.2) (length (fc_threads g.2))) <$> groups.

Definition clear_filterThreads (st : State) : State :=
  let groups := map_to_list (filterThreads (d st)) in
  {| d := with_filterThreads ∅ (d st);
     heap := foldr (λ g h, delete (fc_ctx g.2) h) (heap st) groups;
     next := next st;
     trace := trace st ++ destroy_group_events groups |}.

Definition reset_streamDispatcher (st : State) : State :=
  {| d := {| queue := queue (d st); store := store (d st);
             dissectorThreads := dissectorThreads (d st);
             filterThreads := filterThreads (d st);
             ns := ns (d st); filterScript := filterScript (d st);
             statusCb := statusCb (d st); logCb := logCb (d st);
             streamDispatcher := None; pcap := pcap (d st);
             recentLogs := recentLogs (d st); capturing := capturing (d st);
             threads := threads (d st) |};
     heap := heap st; next := next st;
     trace := trace st
              ++ (if streamDispatcher (d st) is Some _
                  then [EvStreamDispatcherDestroyed] else []) |}.

Definition reset_pcap (st : State) : State :=
  {| d := {| queue := queue (d st); store := store (d st);
             dissectorThreads := dissectorThreads (d st);
             filterThreads := filterThreads (d st);
             ns := ns (d st); filterScript := filterScript (d st);
             statusCb := statusCb (d st); logCb := logCb (d st);
             streamDispatcher := streamDispatcher (d st); pcap := None;
             recentLogs := recentLogs (d st); capturing := capturing (d st);
             threads := threads (d st) |};
     heap := heap st; next := next st;
     trace := trace st ++ (if pcap (d st) is Some _ then [EvPcapDestroyed] else []) |}.

Definition Private_destroy (st : State) : State :=
  emit [EvUvClose StatusSignal; EvUvClose LogSignal]
    (reset_pcap
       (reset_streamDispatcher
          (clear_filterThreads
             (clear_dissectorThreads
                (close_queue st))))).

(** [v8pp::get_option]: the target keeps its value when the property is
    absent. *)
Definition get_option {A} (property : option A) (target : A) : A :=
  default target property.

(** The array elements that are non-empty objects. *)
Definition objects (arr : list JsValue) : list Dissector :=
  omap (λ v, match v with JsObject h => Some h | _ => None end) arr.

(** [Session::Session].  [hardware_concurrency] is what
    [std::thread::hardware_concurrency()] returns. *)
Definition Session_new (option : OptionValue)
    (hardware_concurrency indeterminate : Z) : State :=
  let d0 := Private_new indeterminate in
  match option with
  | OptObject opt =>
      let ns1 := get_option (opt_namespace opt) (ns d0) in
      let script1 := get_option (opt_filterScript opt) (filterScript d0) in
      let t0 := wrap32 hardware_concurrency in
      let t1 := get_option (opt_threads opt) t0 in
      let t := Z.max 1 (wrap32 (t1 - 1)) in
      let dissectors := get_option (objects <$> opt_dissectors opt) [] in
      let streamDissectors := get_option (objects <$> opt_stream_dissectors opt) [] in
      {| d := {| queue := queue d0; store := store d0;
                 dissectorThreads :=
                   replicate (Z.to_nat t) {| dt_dissectors := dissectors |};
                 filterThreads := filterThreads d0;
                 ns := ns1; filterScript := script1;
                 statusCb := statusCb d0; logCb := logCb d0;
                 streamDispatcher :=
                   Some {| sd_threads := t; sd_dissectors := streamDissectors |};
                 pcap := Some PcapOps.new;
                 recentLogs := recentLogs d0; capturing := capturing d0;
                 threads := t |};
         heap := ∅; next := 0;
         trace := replicate (Z.to_nat t) EvDissectorThreadNew
                  ++ [EvStreamDispatcherNew t; EvPcapNew] |}
  | _ => {| d := d0; heap := ∅; next := 0; trace := [] |}
  end.

(** [Session::analyze]. *)
Definition raw_layer (st : State) (pkt : Packet) : Layer :=
  LayerOps.setPayload (PacketOps.payload pkt)
    (LayerOps.setName "Raw Layer" (LayerOps.new (ns (d st)))).

Definition analyze (pkt : Packet) (st : State) : State :=
  let layer := raw_layer st pkt in
  let pkt' := PacketOps.addLayer layer pkt in
  with_d (with_queue (PacketQueueOps.push pkt' (queue (d st))) (d st)) st.

(** [d->filterThreads.erase(name)]: the group's threads and its context
    are destroyed with the map entry. *)
Definition erase (name : string) (st : State) : State :=
  match filterThreads (d st) !! name with
  | None => st
  | Some fc =>
      {| d := with_filterThreads (delete name (filterThreads (d st))) (d st);
         heap := delete (fc_ctx fc) (heap st);
         next := next st;
         trace := trace st
                  ++ [EvFilterContextDestroyed (fc_ctx fc) (length (fc_threads fc))] |}
  end.

(** The body of [if (!filter.empty())]. *)
Definition install (name expr : string) (st : State) : State :=
  let a := next st in
  let n := Z.to_nat (threads (d st)) in
  {| d := with_filterThreads
            (<[name := {| fc_threads := replicate n {| ft_ctx := a |}; fc_ctx := a |}]>
               (filterThreads (d st))) (d st);
     heap := <[a := {| ctx_filter := expr; ctx_script := filterScript (d st);
                       ctx_packets := SequenceSetOps.empty |}]> (heap st);
     next := S a;
     trace := trace st ++ EvFilterContextNew a :: replicate n (EvFilterThreadNew a) |}.

(** [Session::filter]. *)
Definition filter (name expr : string) (st : State) : State :=
  let st1 := erase name st in
  let st2 := if bool_decide (expr = "") then st1 else install name expr st1 in
  emit [EvAsyncSend StatusSignal] st2.

(** [Session::setLogCallback] and [Session::setStatusCallback]. *)
Definition setLogCallback (cb : option Handle) (st : State) : State :=
  with_d (with_logCb cb (d st)) st.

Definition setStatusCallback (cb : option Handle) (st : State) : State :=
  with_d (with_statusCb cb (d st)) st.

(** [Session::get]. *)
Definition get (seq : Z) (st : State) : option Packet :=
  PacketStoreOps.get seq (store (d st)).

(** [Session::getFiltered]; [None] when the group's context pointer does
    not point to a live context. *)
Definition getFiltered (name : string) (start end_ : Z) (st : State)
    : option (list Z) :=
  match filterThreads (d st) !! name with
  | None => Some []
  | Some fc =>
      c ← heap st !! fc_ctx fc;
      Some (SequenceSetOps.get start end_ (ctx_packets c))
  end.

(** [Session::start] and [Session::stop]; [None] when [d->pcap] is null. *)
Definition start (st : State) : option State :=
  src ← pcap (d st);
  Some (emit [EvPcapStart; EvAsyncSend StatusSignal]
          (with_d (with_capture (PcapOps.start src) true (d st)) st)).

Definition stop (st : State) : option State :=
  src ← pcap (d st);
  Some (emit [EvPcapStop; EvAsyncSend StatusSignal]
          (with_d (with_capture (PcapOps.stop src) false (d st)) st)).

(** *** Steps taken by the Session's threads *)

(** [dissCtx->packetCb]: a dissector thread inserts a dissected packet
    into the store, whose change handler [storeCb] raises the status
    signal. *)
Definition packetCb (pkt : Packet) (st : State) : State :=
  emit [EvAsyncSend StatusSignal]
    (with_d (with_store (PacketStoreOps.insert pkt (store (d st))) (d st)) st).

(** A filter thread holding the context at [a] records a match: it inserts
    into [ctx->packets], whose change handler raises the status signal.
    No thread holds a context that has been destroyed. *)
Definition filter_insert (a : addr) (seq : Z) (st : State) : option State :=
  c ← heap st !! a;
  Some (emit [EvAsyncSend StatusSignal]
          {| d := d st;
             heap := <[a := {| ctx_filter := ctx_filter c; ctx_script := ctx_script c;
                               ctx_packets := SequenceSetOps.insert seq (ctx_packets c) |}]>
                       (heap st);
             next := next st; trace := trace st |}).

(** [streamCtx->vpLayersCb] pushes one packet per virtual layer; here one
    push of a packet the stream dispatcher built. *)
Definition queue_push (pkt : Packet) (st : State) : State :=
  with_d (with_queue (PacketQueueOps.push pkt (queue (d st))) (d st)) st.

(** A dissector thread takes the oldest packet off the queue. *)
Definition queue_pop (st : State) : option State :=
  match PacketQueueOps.pop (queue (d st)) with
  | PopItem _ q => Some (with_d (with_queue q (d st)) st)
  | _ => None
  end.

(** What can happen to a live Session: the calls of the host and of the
    frame source, the steps of the worker threads, and the event loop
    running one of the two async handlers. *)
Inductive Op :=
| OpAnalyze (pkt : Packet)
| OpFilter (name expr : string)
| OpStart
| OpStop
| OpSetLogCallback (cb : option Handle)
| OpSetStatusCallback (cb : option Handle)
| OpLog (msg : LogMessage)
| OpPacketCb (pkt : Packet)
| OpQueuePush (pkt : Packet)
| OpQueuePop
| OpFilterInsert (a : addr) (seq : Z)
| OpStatusAsync
| OpLogAsync.

(** [None]: the step is not possible in this state (a thread that does
    not exist or is blocked), or the call dereferences a null pointer. *)
Definition step (op : Op) (st : State) : option State :=
  match op with
  | OpAnalyze pkt => Some (analyze pkt st)
  | OpFilter name expr => Some (filter name expr st)
  | OpStart => start st
  | OpStop => stop st
  | OpSetLogCallback cb => Some (setLogCallback cb st)
  | OpSetStatusCallback cb => Some (setStatusCallback cb st)
  | OpLog msg => Some (log msg st)
  | OpPacketCb pkt => Some (packetCb pkt st)
  | OpQueuePush pkt => Some (queue_push pkt st)
  | OpQueuePop => queue_pop st
  | OpFilterInsert a seq => filter_insert a seq st
  | OpStatusAsync => statusCbAsync_handler st
  | OpLogAsync => Some (logCbAsync_handler st)
  end.

Fixpoint run (ops : list Op) (st : State) : option State :=
  match ops with
  | [] => Some st
  | op :: rest => st' ← step op st; run rest st'
  end.

End Operations.
End Session.

(** ** The dissector threads after the queue is closed *)

(** Modelled from the spec: the loop of a DissectorWorker
    (dissector_thread.hpp is not available): pull one packet, dissect it,
    publish it; exit when [pop] signals closed.  A pool is the shared queue
    and the status of each worker; a schedule interleaves the workers' turns
    with pushes of the frame source and of the stream dispatcher. *)
Module DissectorPool.

Inductive WorkerStatus := Running | Exited.

Record Pool := mkPool {
  pool_queue : PacketQueue;
  pool_workers : list WorkerStatus
}.

Inductive PoolStep :=
| Turn (i : nat)
| Push (pkt : Packet).

Definition turn (i : nat) (p : Pool) : Pool :=
  match pool_workers p !! i with
  | Some Running =>
      match PacketQueueOps.pop (pool_queue p) with
      | PopItem _ q => {| pool_queue := q; pool_workers := pool_workers p |}
      | PopBlocked => p
      | PopClosed =>
          {| pool_queue := pool_queue p;
             pool_workers := <[i := Exited]> (pool_workers p) |}
      end
  | _ => p
  end.

Definition pool_step (s : PoolStep) (p : Pool) : Pool :=
  match s with
  | Turn i => turn i p
  | Push pkt =>
      {| pool_queue := PacketQueueOps.push pkt (pool_queue p);
         pool_workers := pool_workers p |}
  end.

Fixpoint schedule (steps : list PoolStep) (p : Pool) : Pool :=
  match steps with
  | [] => p
  | s :: rest => schedule rest (pool_step s p)
  end.

(** The number of turns worker [i] gets in a schedule. *)
Fixpoint turns_of (i : nat) (steps : list PoolStep) : nat :=
  match steps with
  | [] => 0
  | Turn j :: rest => (if bool_decide (i = j) then 1 else 0) + turns_of i rest
  | Push _ :: rest => turns_of i rest
  end.

(** The dissector threads of a Session, all in their loop. *)
Definition of_session (st : State) : Pool :=
  {| pool_queue := queue (d st);
     pool_workers := replicate (length (dissectorThreads (d st))) Running |}.

End DissectorPool.

(** Modelled from the spec: [LogMessage::key()] (log_message.hpp is not
    available), the deduplication key (domain, resourceName, lineNumber,
    message) as one string.  The theorems below hold for every key function;
    this one is used to run the model on concrete inputs. *)
Definition LogMessage_key (m : LogMessage) : string :=
  domain m +:+ ":" +:+ resourceName m +:+ ":" +:+ pretty (lineNumber m)
    +:+ ":" +:+ message m.

(** The messages emitted by [Private::log] in a list of steps, oldest first. *)
Definition logs_of (ops : list Session.Op) : list LogMessage :=
  omap (λ op, match op with Session.OpLog msg => Some msg | _ => None end) ops.

(** [recentLogs] after the messages [msgs] were recorded in turn. *)
Definition record_all (key : LogMessage → string) (msgs : list LogMessage)
    (m : gmap string LogMessage) : gmap string LogMessage :=
  foldl (λ acc msg, <[key msg := msg]> acc) m msgs.

(** The last message of [msgs] recorded under the key [k]. *)
Definition latest (key : LogMessage → string) (k : string)
    (msgs : list LogMessage) : option LogMessage :=
  last (List.filter (λ msg, bool_decide (key msg = k)) msgs).

(** The steps that install or remove the group [name]. *)
Definition touches (name : string) (op : Session.Op) : bool :=
  match op with
  | Session.OpFilter name' _ => bool_decide (name' = name)
  | _ => false
  end.

(** The steps that install a group under [name]. *)
Definition installs (name : string) (op : Session.Op) : bool :=
  match op with
  | Session.OpFilter name' expr => bool_decide (name' = name) && negb (bool_decide (expr = ""))
  | _ => false
  end.


(** The invariant of a live Session: the queue is open, every installed
    group points to a live context of its own, and every live context was
    allocated before [next]. *)
Record inv (st : State) : Prop := mkInv {
  inv_open : q_closed (queue (d st)) = false;
  inv_live : ∀ name fc, filterThreads (d st) !! name = Some fc →
               is_Some (heap st !! fc_ctx fc);
  inv_next : ∀ a, is_Some (heap st !! a) → a < next st;
  inv_inj : ∀ n1 n2 fc1 fc2,
               filterThreads (d st) !! n1 = Some fc1 →
               filterThreads (d st) !! n2 = Some fc2 →
               fc_ctx fc1 = fc_ctx fc2 → n1 = n2
}.

(** The group [Session::filter] builds for a non-empty expression. *)
Definition new_group (st : State) : FilterContext :=
  {| fc_threads := replicate (Z.to_nat (threads (d st))) {| ft_ctx := next st |};
     fc_ctx := next st |}.

(** The batch one delivery hands to the log callback after the messages
    [msgs] were recorded into an empty [recentLogs]. *)
Definition batch_of (key : LogMessage → string) (msgs : list LogMessage)
    : list LogMessage :=
  (map_to_list (record_all key msgs ∅)).*2.

(** No log delivery happens while [ops] run from [st]: whenever the event
    loop runs the log handler, the log callback is an empty handle. *)
Fixpoint no_delivery (key : LogMessage → string) (ops : list Session.Op)
    (st : State) : bool :=
  match ops with
  | [] => true
  | op :: rest =>
      match op with
      | Session.OpLogAsync => if logCb (d st) is Some _ then false else true
      | _ => true
      end
      && match Session.step key op st with
         | Some st' => no_delivery key rest st'
         | None => true
         end
  end.

(** The dissector threads of a Session at the point where its destructor has
    closed the queue and nothing else. *)
Definition pool_after_close (st : State) : DissectorPool.Pool :=
  DissectorPool.of_session (Session.close_queue st).

(** The installed groups whose names are C strings already. *)
Definition plain_names (st : State) : Prop :=
  map_Forall (λ name _, Session.c_str name = name) (filterThreads (d st)).

(** ** Concrete inputs *)

Definition example_options : Options :=
  {| opt_namespace := Some "eth"; opt_filterScript := Some "filter.js";
     opt_threads := Some 3%Z;
     opt_dissectors := Some [JsObject 1; JsPrimitive; JsObject 2];
     opt_stream_dissectors := Some [JsEmpty; JsObject 3] |}.

(** The configuration whose thread count is [INT_MIN]. *)
Definition options_int_min : Options :=
  {| opt_namespace := Some "eth"; opt_filterScript := None;
     opt_threads := Some INT_MIN;
     opt_dissectors := None; opt_stream_dissectors := None |}.

Definition example_session : State :=
  Session.Session_new (OptObject example_options) 8 0.

(** The state after [ops], or [st] itself when some step is not possible. *)
Definition after (ops : list Session.Op) (st : State) : State :=
  default st (Session.run LogMessage_key ops st).

Definition raw_packet : Packet :=
  {| pkt_payload := [Byte.xaa; Byte.x01]; pkt_layers := [] |}.


Definition example_log (text : string) (line : Z) : LogMessage :=
  {| level := LevelError; message := text; domain := "dissector";
     resourceName := "tcp.js"; sourceLine := "throw e"; lineNumber := line;
     startPosition := (-1)%Z; endPosition := (-1)%Z;
     startColumn := 4%Z; endColumn := 9%Z |}.

(** A Session with a status callback and the group "even", whose threads
    have matched the packets 2 and 4, and two packets waiting in the queue. *)
Definition even_ops : list Session.Op :=
  [Session.OpSetStatusCallback (Some 7);
   Session.OpAnalyze raw_packet; Session.OpAnalyze raw_packet;
   Session.OpFilter "even" "seq % 2 == 0";
   Session.OpFilterInsert 0 4; Session.OpFilterInsert 0 2;
   Session.OpStatusAsync].

Definition even_session : State := after even_ops example_session.

Definition even_group : FilterContext :=
  {| fc_threads := [ {| ft_ctx := 0 |}; {| ft_ctx := 0 |} ]; fc_ctx := 0 |}.

(** Steps after "even" was replaced: the new group's threads match 3 and 6,
    another group comes and its thread matches 5. *)
Definition later_ops : list Session.Op :=
  [Session.OpFilterInsert 1 6; Session.OpPacketCb raw_packet;
   Session.OpFilterInsert 1 3; Session.OpFilter "odd" "seq % 2 == 1";
   Session.OpFilterInsert 2 5; Session.OpStart].

(** Steps after "even" was removed. *)
Definition idle_ops : list Session.Op :=
  [Session.OpFilter "odd" "seq % 2 == 1"; Session.OpFilterInsert 1 5;
   Session.OpFilter "even" ""; Session.OpStop].

(** A Session right before a log delivery, and the steps up to the next:
    one message three times, another once, and a run of the handler while no
    callback is installed. *)
Definition logging_session : State :=
  after [Session.OpSetLogCallback (Some 9); Session.OpLog (example_log "boom" 3)]
    example_session.

Definition logging_ops : list Session.Op :=
  [Session.OpLog (example_log "bad length" 12);
   Session.OpLog (example_log "bad length" 12);
   Session.OpLog (example_log "bad length" 12);
   Session.OpSetLogCallback None; Session.OpLogAsync;
   Session.OpLog (example_log "boom" 3);
   Session.OpSetLogCallback (Some 5)].

Definition logging_ops_once : list Session.Op :=
  [Session.OpLog (example_log "bad length" 12);
   Session.OpLog (example_log "boom" 3);
   Session.OpSetLogCallback (Some 5)].

(** A group name with an embedded NUL: the three characters a, NUL, b. *)
Definition nul_name : string :=
  String "a"%char (String Ascii.zero (String "b"%char EmptyString)).

(** A Session with a status callback and one group, installed under
    [nul_name], whose threads have matched the packets 1 and 2. *)
Definition nul_session : State :=
  after [Session.OpSetStatusCallback (Some 7);
         Session.OpFilter nul_name "true";
         Session.OpFilterInsert 0 1; Session.OpFilterInsert 0 2]
    example_session.

(** Turns of the two dissector threads of [even_session] after the close,
    with a late push in between. *)
Definition closing_steps : list DissectorPool.PoolStep :=
  [DissectorPool.Turn 0; DissectorPool.Push raw_packet; DissectorPool.Turn 1;
   DissectorPool.Turn 1; DissectorPool.Turn 0; DissectorPool.Turn 0;
   DissectorPool.Turn 1].

(** ** The rest of the Session's surface *)

(** [Session::logCallback], [Session::statusCallback], [Session::ns]. *)
Definition Session_logCallback (st : State) : option Handle := logCb (d st).
Definition Session_statusCallback (st : State) : option Handle := statusCb (d st).
Definition Session_ns (st : State) : string := ns (d st).

(** The test [!diss.IsEmpty() && diss->IsObject()] of the constructor's two
    loops. *)
Definition is_object (v : JsValue) : bool :=
  match v with JsObject _ => true | _ => false end.

(** [Pcap::Device], as [Session::devices] reads it (pcap.hpp is not
    available): the five members copied into the host object. *)
Record Device := mkDevice {
  dev_id : string;
  dev_name : string;
  dev_description : string;
  dev_link : Z;
  dev_loopback : bool
}.

(** The object built for one device. *)
Record DeviceObject := mkDeviceObject {
  do_id : string;
  do_name : string;
  do_description : string;
  do_link : Z;
  do_loopback : bool
}.

(** A host array: a list of slots, [None] being a hole.  [Array::New(n)]
    has [n] holes; [Set(i, v)] fills slot [i], and first extends the array
    with holes when [i] is beyond its end. *)
Definition Array_new (n : nat) : list (option DeviceObject) := replicate n None.

Definition Array_set (i : nat) (v : DeviceObject) (arr : list (option DeviceObject))
    : list (option DeviceObject) :=
  if decide (i < length arr) then <[i := Some v]> arr
  else arr ++ replicate (i - length arr) None ++ [Some v].

Definition device_object (dev : Device) : DeviceObject :=
  {| do_id := dev_id dev; do_name := dev_name dev;
     do_description := dev_description dev; do_link := dev_link dev;
     do_loopback := dev_loopback dev |}.

(** [Session::devices], on the vector [Pcap::devices()] returns: one round
    of the loop for every index below [devs.size()]. *)
Definition devices_round (devs : list Device) (arr : list (option DeviceObject))
    (i : nat) : list (option DeviceObject) :=
  match devs !! i with
  | Some dev => Array_set i (device_object dev) arr
  | None => arr
  end.

Definition Session_devices (devs : list Device) : list (option DeviceObject) :=
  foldl (devices_round devs) (Array_new (length devs)) (seq 0 (length devs)).

(** ** Observations on states, steps and traces *)

(** What the status callback would be told in a state. *)
Definition status_view (st : State) : bool * Z * option (gmap string Z) :=
  (capturing (d st), PacketStoreOps.maxSeq (store (d st)), Session.filtered_sizes st).

(** The value [capturing] has after the calls of [start] and [stop] among
    [ops], starting from [b]. *)
Definition capture_after (ops : list Session.Op) (b : bool) : bool :=
  foldl (λ acc op, match op with
                   | Session.OpStart => true
                   | Session.OpStop => false
                   | _ => acc
                   end) b ops.

(** The packets the dissector threads hand to [packetCb] in [ops]. *)
Definition stored_of (ops : list Session.Op) : list Packet :=
  omap (λ op, match op with Session.OpPacketCb pkt => Some pkt | _ => None end) ops.

(** Two coordinates of a log message the host cannot tell apart: equal, or
    both negative. *)
Definition coord_eq (a b : Z) : Prop := a = b ∨ (a < 0 ∧ b < 0)%Z.

(** Weighted count of the events of a trace. *)
Definition count (w : Event → nat) (tr : list Event) : nat := sum_list (w <$> tr).

Definition w_context_new (e : Event) : nat :=
  match e with EvFilterContextNew _ => 1 | _ => 0 end.
Definition w_context_destroyed (e : Event) : nat :=
  match e with EvFilterContextDestroyed _ _ => 1 | _ => 0 end.
Definition w_filter_thread_new (e : Event) : nat :=
  match e with EvFilterThreadNew _ => 1 | _ => 0 end.
Definition w_filter_thread_destroyed (e : Event) : nat :=
  match e with EvFilterContextDestroyed _ n => n | _ => 0 end.
Definition w_dissector_thread_new (e : Event) : nat :=
  match e with EvDissectorThreadNew => 1 | _ => 0 end.
Definition w_dissector_thread_destroyed (e : Event) : nat :=
  match e with EvDissectorThreadsDestroyed n => n | _ => 0 end.

(** What a Session keeps from its construction on: the configuration, the
    shape of every filter group (as many threads as configured, all holding
    the group's own context) and of every context (the Session's filter
    script, a non-empty expression), and the ownership of the contexts
    (each live context belongs to an installed group). *)
Record configured (ns0 script0 : string) (t0 : Z) (st : State) : Prop := mkConfigured {
  cfg_ns : ns (d st) = ns0;
  cfg_script : filterScript (d st) = script0;
  cfg_threads : threads (d st) = t0;
  cfg_group : ∀ name fc, filterThreads (d st) !! name = Some fc →
                fc_threads fc = replicate (Z.to_nat t0) {| ft_ctx := fc_ctx fc |};
  cfg_ctx : ∀ a c, heap st !! a = Some c → ctx_script c = script0 ∧ ctx_filter c ≠ "";
  cfg_owned : ∀ a c, heap st !! a = Some c →
                ∃ name fc, filterThreads (d st) !! name = Some fc ∧ fc_ctx fc = a
}.

(** The books of a Session balance: what its trace has created and not yet
    destroyed is what it holds. *)
Record balanced (st : State) : Prop := mkBalanced {
  bal_contexts : count w_context_new (trace st)
                 = count w_context_destroyed (trace st) + size (filterThreads (d st));
  bal_filter_threads : count w_filter_thread_new (trace st)
                 = count w_filter_thread_destroyed (trace st)
                   + size (filterThreads (d st)) * Z.to_nat (threads (d st));
  bal_dissector_threads : count w_dissector_thread_new (trace st)
                 = count w_dissector_thread_destroyed (trace st)
                   + length (dissectorThreads (d st))
}.

(** Where the callbacks and the pending log messages of a state come from:
    the callback handles were installed by the host ([L], [S]) and every
    pending message was logged ([M]); and every call in the trace passed an
    installed handle, and for the log callback a logged message. *)
Record provenance (L S : Handle → Prop) (M : LogMessage → Prop) (st : State)
    : Prop := mkProvenance {
  prov_logCb : ∀ cb, logCb (d st) = Some cb → L cb;
  prov_statusCb : ∀ cb, statusCb (d st) = Some cb → S cb;
  prov_pending : ∀ k msg, recentLogs (d st) !! k = Some msg → M msg;
  prov_log_calls : ∀ cb obj, EvLogCall cb obj ∈ trace st →
                     L cb ∧ ∃ msg, M msg ∧ obj = Session.log_object msg;
  prov_status_calls : ∀ cb obj, EvStatusCall cb obj ∈ trace st → S cb
}.

(** An event that neither creates nor destroys a thread or a context. *)
Definition weightless (e : Event) : Prop :=
  w_context_new e = 0 ∧ w_context_destroyed e = 0
  ∧ w_filter_thread_new e = 0 ∧ w_filter_thread_destroyed e = 0
  ∧ w_dissector_thread_new e = 0 ∧ w_dissector_thread_destroyed e = 0.

(** ** More concrete inputs *)

(** An option object without a [threads] property. *)
Definition options_without_threads : Options :=
  {| opt_namespace := Some "eth"; opt_filterScript := None;
     opt_threads := None;
     opt_dissectors := Some [JsObject 1]; opt_stream_dissectors := None |}.

(** The host starts, stops and starts the capture of [even_session]. *)
Definition capture_ops : list Session.Op :=
  even_ops ++ [Session.OpStart; Session.OpStop; Session.OpStart].

(** Two messages are logged and the handler runs before the host installs
    its log callback. *)
Definition waiting_ops : list Session.Op :=
  [Session.OpLog (example_log "boom" 3); Session.OpLogAsync;
   Session.OpLog (example_log "bad length" 12);
   Session.OpLog (example_log "boom" 3);
   Session.OpSetLogCallback (Some 9)].

(** A dissector thread stores a packet between other steps. *)
Definition storing_ops : list Session.Op :=
  [Session.OpAnalyze raw_packet; Session.OpPacketCb raw_packet;
   Session.OpFilterInsert 0 6; Session.OpQueuePop].

(** What a Session built without an option object can still do. *)
Definition bare_ops : list Session.Op :=
  [Session.OpSetStatusCallback (Some 7); Session.OpFilter "even" "seq % 2 == 0";
   Session.OpLog (example_log "boom" 3); Session.OpAnalyze raw_packet;
   Session.OpStatusAsync].

(** ** Proof automation *)

(** After [destruct op; simpl in H], with [H : Session.step key op st = Some
    st'], the steps that can fail are opened on the test that guards them;
    the impossible branches go and [st'] is replaced by what the step
    builds. *)
Ltac invert_step H :=
  lazymatch type of H with
  | Session.start ?st = Some _ =>
      unfold Session.start in H; destruct (pcap (d st)) eqn:?
  | Session.stop ?st = Some _ =>
      unfold Session.stop in H; destruct (pcap (d st)) eqn:?
  | Session.queue_pop ?st = Some _ =>
      unfold Session.queue_pop in H;
      destruct (PacketQueueOps.pop (queue (d st))) eqn:?
  | Session.filter_insert ?a _ ?st = Some _ =>
      unfold Session.filter_insert in H; destruct (heap st !! a) eqn:?
  | Session.statusCbAsync_handler ?st = Some _ =>
      unfold Session.statusCbAsync_handler in H;
      destruct (statusCb (d st)) eqn:?;
      [destruct (Session.filtered_sizes st) eqn:?|]
  | _ => idtac
  end;
  simpl in H; simplify_eq.

(** The goal is about an absent status call in a literal list of events. *)
Ltac no_status_call H :=
  repeat (apply elem_of_cons in H as [H|H]; [discriminate|]);
  by apply elem_of_nil in H.

(** * Properties *)

(** ** The collaborators' models *)

Lemma wrap32_id (z : Z) : in_int z → wrap32 z = z.
Proof.
  unfold in_int, INT_MIN, INT_MAX, wrap32. intros Hz.
  rewrite Z.mod_small; lia.
Qed.

Lemma SequenceSet_elem_of_insert (v x : Z) (s : SequenceSet) :
  x ∈ SequenceSetOps.insert v s ↔ x = v ∨ x ∈ s.
Proof.
  induction s as [|y s IH]; simpl.
  - rewrite list_elem_of_singleton, elem_of_nil. tauto.
  - destruct (Z.ltb_spec v y) as [Hlt|Hge].
    + rewrite !elem_of_cons. tauto.
    + destruct (Z.eqb_spec v y) as [->|Hne].
      * rewrite !elem_of_cons. tauto.
      * rewrite !elem_of_cons, IH. tauto.
Qed.

Lemma SequenceSet_elem_of_get (start end_ x : Z) (s : SequenceSet) :
  x ∈ SequenceSetOps.get start end_ s ↔ x ∈ s ∧ (start ≤ x < end_)%Z.
Proof.
  unfold SequenceSetOps.get. rewrite !list_elem_of_In, filter_In, <- list_elem_of_In.
  unfold SequenceSetOps.in_range. rewrite andb_true_iff, Z.leb_le, Z.ltb_lt. tauto.
Qed.

Lemma PacketQueue_push_closed (pkt : Packet) (q : PacketQueue) :
  q_closed q = true → PacketQueueOps.push pkt q = q.
Proof. intros H. unfold PacketQueueOps.push. rewrite H. reflexivity. Qed.


(** ** The invariant holds in every reachable state *)

Section Invariant.
Variable key : LogMessage → string.

Lemma inv_Session_new option hw indet : inv (Session.Session_new option hw indet).
Proof.
  destruct option; split; simpl; try done;
    try (intros ? ?; rewrite lookup_empty; by inversion 1);
    try (intros ?; rewrite lookup_empty; by inversion 1);
    try (intros ? ? ? ?; rewrite lookup_empty; by inversion 1).
Qed.

Lemma inv_erase name st : inv st → inv (Session.erase name st).
Proof.
  intros [Ho Hl Hn Hi]. unfold Session.erase.
  destruct (filterThreads (d st) !! name) as [fc|] eqn:Hfc; [|by split].
  split; simpl.
  - done.
  - intros name' fc'. rewrite lookup_delete_Some. intros [Hne Hfc'].
    rewrite lookup_delete_ne; [by eapply Hl|].
    intros Heq. apply Hne. symmetry. by eapply Hi.
  - intros a [c Hc]. apply lookup_delete_Some in Hc as [_ Hc]. apply Hn. by exists c.
  - intros n1 n2 fc1 fc2. rewrite !lookup_delete_Some.
    intros [_ H1] [_ H2]. by eapply Hi.
Qed.

Lemma inv_install name expr st :
  inv st → filterThreads (d st) !! name = None → inv (Session.install name expr st).
Proof.
  intros [Ho Hl Hn Hi] Hnone. split; simpl.
  - done.
  - intros name' fc'. rewrite lookup_insert_Some.
    intros [[<- <-]|[Hne Hfc']]; simpl.
    + rewrite lookup_insert_eq. by eexists.
    + destruct (Hl _ _ Hfc') as [c Hc]. exists c.
      rewrite lookup_insert_ne; [done|].
      intros Heq. assert (fc_ctx fc' < next st) by (apply Hn; by exists c). lia.
  - intros a [c Hc]. apply lookup_insert_Some in Hc as [[<- _]|[_ Hc]]; [lia|].
    assert (a < next st) by (apply Hn; by exists c). lia.
  - intros n1 n2 fc1 fc2. rewrite !lookup_insert_Some.
    intros [[<- <-]|[Hne1 H1]] [[<- <-]|[Hne2 H2]]; simpl; try done.
    + intros Heq. destruct (Hl _ _ H2) as [c Hc].
      assert (fc_ctx fc2 < next st) by (apply Hn; by exists c). lia.
    + intros Heq. destruct (Hl _ _ H1) as [c Hc].
      assert (fc_ctx fc1 < next st) by (apply Hn; by exists c). lia.
    + by eapply Hi.
Qed.

Lemma erase_lookup name st : filterThreads (d (Session.erase name st)) !! name = None.
Proof.
  unfold Session.erase.
  destruct (filterThreads (d st) !! name) as [fc|] eqn:Hfc; simpl; [|done].
  apply lookup_delete_eq.
Qed.

Lemma inv_emit evs st : inv st → inv (emit evs st).
Proof. intros [Ho Hl Hn Hi]. by split. Qed.

Lemma inv_filter name expr st : inv st → inv (Session.filter name expr st).
Proof.
  intros Hinv. unfold Session.filter. apply inv_emit.
  case_bool_decide.
  - by apply inv_erase.
  - apply inv_install; [by apply inv_erase | apply erase_lookup].
Qed.

Lemma inv_push pkt st :
  inv st → inv (with_d (with_queue (PacketQueueOps.push pkt (queue (d st))) (d st)) st).
Proof.
  intros [Ho Hl Hn Hi]. split; simpl; try done.
  unfold PacketQueueOps.push. by rewrite Ho.
Qed.

Lemma inv_same st st' :
  q_closed (queue (d st')) = q_closed (queue (d st)) →
  filterThreads (d st') = filterThreads (d st) →
  heap st' = heap st →
  next st' = next st →
  inv st → inv st'.
Proof.
  intros Hq Hf Hh Hx [Ho Hl Hn Hi].
  split; rewrite ?Hq, ?Hf, ?Hh, ?Hx; done.
Qed.

Lemma inv_step op st st' : Session.step key op st = Some st' → inv st → inv st'.
Proof.
  intros Hstep Hinv. destruct op; simpl in Hstep; invert_step Hstep;
    try (by apply inv_push); try (by apply inv_filter);
    try (by eapply inv_same; [..|exact Hinv]).
  - (* a dissector thread pops *)
    unfold PacketQueueOps.pop in *.
    destruct (q_items (queue (d st))); [|simplify_eq; by eapply inv_same; [..|exact Hinv]].
    by rewrite (inv_open _ Hinv) in *.
  - (* a filter thread inserts *)
    destruct Hinv as [Ho Hl Hn Hi]. split; simpl; try done.
    + intros name fc Hfc. destruct (decide (a = fc_ctx fc)) as [->|Hne].
      * rewrite lookup_insert_eq. by eexists.
      * rewrite lookup_insert_ne; [by eapply Hl | done].
    + intros a' [c' Hc']. apply lookup_insert_Some in Hc' as [[<- _]|[_ Hc']];
        apply Hn; by eexists.
  - (* the log handler *)
    unfold Session.logCbAsync_handler. destruct (logCb (d st)); [|done].
    by eapply inv_same; [..|exact Hinv].
Qed.

Lemma inv_run ops st st' : Session.run key ops st = Some st' → inv st → inv st'.
Proof.
  revert st. induction ops as [|op ops IH]; intros st Hrun Hinv; simpl in Hrun.
  - by simplify_eq.
  - destruct (Session.step key op st) as [st1|] eqn:Hstep; simplify_eq/=.
    eapply IH; [done|]. by eapply inv_step.
Qed.

Lemma inv_reachable option hw indet ops st :
  Session.run key ops (Session.Session_new option hw indet) = Some st → inv st.
Proof. intros Hrun. eapply inv_run; [done|]. apply inv_Session_new. Qed.

Lemma run_app ops1 ops2 st :
  Session.run key (ops1 ++ ops2) st
  = Session.run key ops1 st ≫= Session.run key ops2.
Proof.
  revert st. induction ops1 as [|op ops1 IH]; intros st; simpl; [done|].
  destruct (Session.step key op st); simpl; [apply IH | done].
Qed.

End Invariant.

(** ** How a step acts on one filter group *)

Section Groups.
Variable key : LogMessage → string.

Lemma erase_lookup_ne name name' st :
  name' ≠ name →
  filterThreads (d (Session.erase name' st)) !! name = filterThreads (d st) !! name.
Proof.
  intros Hne. unfold Session.erase.
  destruct (filterThreads (d st) !! name') as [fc|] eqn:Hfc; simpl; [|done].
  by apply lookup_delete_ne.
Qed.

Lemma filter_lookup_ne name name' expr st :
  name' ≠ name →
  filterThreads (d (Session.filter name' expr st)) !! name = filterThreads (d st) !! name.
Proof.
  intros Hne. unfold Session.filter. simpl. case_bool_decide; simpl.
  - by apply erase_lookup_ne.
  - rewrite lookup_insert_ne by done. by apply erase_lookup_ne.
Qed.

Lemma filter_empty_lookup name st :
  filterThreads (d (Session.filter name "" st)) !! name = None.
Proof. unfold Session.filter. simpl. apply erase_lookup. Qed.

(** A step that installs no group under [name] leaves [name] without a
    group. *)
Lemma step_keeps_absent name op st st' :
  installs name op = false →
  filterThreads (d st) !! name = None →
  Session.step key op st = Some st' →
  filterThreads (d st') !! name = None.
Proof.
  intros Hop Hnone Hstep.
  destruct op; simpl in Hstep, Hop; invert_step Hstep; try done.
  - destruct (decide (name0 = name)) as [->|Hne].
    + rewrite bool_decide_eq_true_2 in Hop by done. simpl in Hop.
      apply negb_false_iff, bool_decide_eq_true in Hop. subst expr.
      apply filter_empty_lookup.
    + by rewrite filter_lookup_ne.
  - unfold Session.logCbAsync_handler. by destruct (logCb (d st)).
Qed.

Lemma run_keeps_absent name ops st st' :
  Forall (λ op, installs name op = false) ops →
  filterThreads (d st) !! name = None →
  Session.run key ops st = Some st' →
  filterThreads (d st') !! name = None.
Proof.
  intros Hops. revert st. induction Hops as [|op ops Hop Hops IH];
    intros st Hnone Hrun; simpl in Hrun.
  - by simplify_eq.
  - destruct (Session.step key op st) as [st1|] eqn:Hstep; simplify_eq/=.
    eapply IH; [|done]. by eapply step_keeps_absent.
Qed.

(** A step that does not touch the group [name] keeps its context, and adds
    to its result set exactly the sequence numbers its threads insert. *)
Lemma step_group_packets name fc c op st st' :
  inv st →
  touches name op = false →
  filterThreads (d st) !! name = Some fc →
  heap st !! fc_ctx fc = Some c →
  Session.step key op st = Some st' →
  filterThreads (d st') !! name = Some fc ∧
  ∃ c', heap st' !! fc_ctx fc = Some c' ∧
        ∀ v, v ∈ ctx_packets c' ↔
             v ∈ ctx_packets c ∨ op = Session.OpFilterInsert (fc_ctx fc) v.
Proof.
  intros Hinv Hop Hfc Hc Hstep.
  assert (Hlt : fc_ctx fc < next st) by (apply (inv_next _ Hinv); by eexists).
  assert (Hkept : ∀ op', (∀ v, op' ≠ Session.OpFilterInsert (fc_ctx fc) v) →
            ∃ c', Some c = Some c' ∧
              ∀ v, v ∈ ctx_packets c' ↔
                   v ∈ ctx_packets c ∨ op' = Session.OpFilterInsert (fc_ctx fc) v).
  { intros op' Hne. exists c. split; [done|]. intros v. specialize (Hne v). tauto. }
  destruct op; simpl in Hstep, Hop; try apply bool_decide_eq_false in Hop;
    invert_step Hstep;
    try (split; [exact Hfc|]; simpl; rewrite Hc; by apply Hkept).
  - (* filter, under another name *)
    split; [by rewrite filter_lookup_ne|].
    assert (Herase : heap (Session.erase name0 st) !! fc_ctx fc = Some c).
    { unfold Session.erase.
      destruct (filterThreads (d st) !! name0) as [fc0|] eqn:Hfc0; simpl; [|done].
      rewrite lookup_delete_ne; [done|].
      intros Heq. apply Hop. by eapply (inv_inj _ Hinv). }
    assert (Hnext : next (Session.erase name0 st) = next st).
    { unfold Session.erase. by destruct (filterThreads (d st) !! name0). }
    unfold Session.filter. simpl. case_bool_decide; simpl.
    + rewrite Herase. by apply Hkept.
    + rewrite lookup_insert_ne by (rewrite Hnext; lia). rewrite Herase. by apply Hkept.
  - (* a filter thread inserts *)
    split; [done|]. simpl.
    destruct (decide (a = fc_ctx fc)) as [->|Hne].
    + rewrite lookup_insert_eq. eexists. split; [done|]. simpl.
      intros v. rewrite SequenceSet_elem_of_insert. simplify_eq. split.
      * intros [->|Hv]; [by right | by left].
      * intros [Hv|Heq]; [by right | left; congruence].
    + rewrite lookup_insert_ne, Hc by done. apply Hkept. congruence.
  - (* the log handler *)
    unfold Session.logCbAsync_handler.
    destruct (logCb (d st)); simpl; (split; [done|]); rewrite Hc; by apply Hkept.
Qed.

Lemma run_group_packets name fc ops : ∀ c st st',
  inv st →
  Forall (λ op, touches name op = false) ops →
  filterThreads (d st) !! name = Some fc →
  heap st !! fc_ctx fc = Some c →
  Session.run key ops st = Some st' →
  filterThreads (d st') !! name = Some fc ∧
  ∃ c', heap st' !! fc_ctx fc = Some c' ∧
        ∀ v, v ∈ ctx_packets c' ↔
             v ∈ ctx_packets c ∨ Session.OpFilterInsert (fc_ctx fc) v ∈ ops.
Proof.
  induction ops as [|op ops IH]; intros c st st' Hinv Hops Hfc Hc Hrun; simpl in Hrun.
  - simplify_eq. split; [done|]. exists c. split; [done|].
    intros v. rewrite elem_of_nil. tauto.
  - destruct (Session.step key op st) as [st1|] eqn:Hstep; simplify_eq/=.
    apply Forall_cons in Hops as [Hop Hops].
    destruct (step_group_packets _ _ _ _ _ _ Hinv Hop Hfc Hc Hstep)
      as (Hfc1 & c1 & Hc1 & Hv1).
    destruct (IH c1 st1 st' (inv_step key _ _ _ Hstep Hinv) Hops Hfc1 Hc1 Hrun)
      as (Hfc' & c' & Hc' & Hv').
    split; [done|]. exists c'. split; [done|].
    intros v. rewrite Hv', Hv1, elem_of_cons. split.
    + intros [[?|?]|?]; [by left | right; by left | right; by right].
    + intros [?|[?|?]]; [left; by left | left; by right | by right].
Qed.

End Groups.

(** ** Filter groups: replacement, removal, reads *)

Section Filters.
Variable key : LogMessage → string.

Lemma filter_replace_state name expr fc_old st :
  filterThreads (d st) !! name = Some fc_old →
  expr ≠ "" →
  Session.filter name expr st =
  {| d := with_filterThreads
            (<[name := new_group st]> (delete name (filterThreads (d st)))) (d st);
     heap := <[next st := {| ctx_filter := expr; ctx_script := filterScript (d st);
                             ctx_packets := [] |}]> (delete (fc_ctx fc_old) (heap st));
     next := S (next st);
     trace := trace st
              ++ [EvFilterContextDestroyed (fc_ctx fc_old) (length (fc_threads fc_old))]
              ++ [EvFilterContextNew (next st)]
              ++ replicate (Z.to_nat (threads (d st))) (EvFilterThreadNew (next st))
              ++ [EvAsyncSend StatusSignal] |}.
Proof.
  intros Hfc Hexpr. unfold Session.filter, Session.erase. rewrite Hfc.
  rewrite bool_decide_eq_false_2 by done.
  unfold Session.install, emit, new_group. simpl. f_equal.
  by rewrite <- !app_assoc.
Qed.

(** C1: replacing the group installed under a name.  In a reachable state
    with a group under [name], [Session::filter name expr] with a non-empty
    [expr] first destroys the old group (its threads and its context, hence
    its result set) and only then creates the new context and its threads;
    the new context is a different object with an empty result set; and as
    long as the group is not replaced again, every [getFiltered name] reads
    the new context: it returns exactly the sequence numbers in range that
    the new group's threads inserted after the replacement, so a value held
    only by the old set is never returned. *)
Theorem filter_replace_reads_new_set option hw indet ops0 st name expr fc_old
    ops st' start end_ :
  Session.run key ops0 (Session.Session_new option hw indet) = Some st →
  filterThreads (d st) !! name = Some fc_old →
  expr ≠ "" →
  Forall (λ op, touches name op = false) ops →
  Session.run key ops (Session.filter name expr st) = Some st' →
  let a_old := fc_ctx fc_old in
  let a_new := next st in
  let st1 := Session.filter name expr st in
  trace st1 = trace st
              ++ [EvFilterContextDestroyed a_old (length (fc_threads fc_old))]
              ++ [EvFilterContextNew a_new]
              ++ replicate (Z.to_nat (threads (d st))) (EvFilterThreadNew a_new)
              ++ [EvAsyncSend StatusSignal]
  ∧ a_new ≠ a_old
  ∧ heap st1 !! a_old = None
  ∧ ctx_packets <$> heap st1 !! a_new = Some []
  ∧ filterThreads (d st') !! name = Some (new_group st)
  ∧ ∃ l, Session.getFiltered name start end_ st' = Some l
         ∧ (∀ v, v ∈ l ↔ Session.OpFilterInsert a_new v ∈ ops ∧ (start ≤ v < end_)%Z)
         ∧ (∀ c_old v, heap st !! a_old = Some c_old → v ∈ ctx_packets c_old →
                       Session.OpFilterInsert a_new v ∉ ops → v ∉ l).
Proof.
  intros Hreach Hfc Hexpr Hops Hrun a_old a_new st1.
  pose proof (inv_reachable key _ _ _ _ _ Hreach) as Hinv.
  assert (Hlt : a_old < a_new).
  { apply (inv_next _ Hinv). by eapply (inv_live _ Hinv). }
  assert (Hinv1 : inv st1) by (by apply inv_filter).
  subst st1. rewrite (filter_replace_state _ _ _ _ Hfc Hexpr) in *. simpl.
  split; [done|]. split; [lia|].
  split; [rewrite lookup_insert_ne by lia; apply lookup_delete_eq|].
  split; [by rewrite lookup_insert_eq|].
  match type of Hrun with Session.run _ _ ?s = _ => set (st1 := s) in * end.
  assert (Hfc1 : filterThreads (d st1) !! name = Some (new_group st))
    by (simpl; apply lookup_insert_eq).
  assert (Hc1 : heap st1 !! fc_ctx (new_group st)
                = Some {| ctx_filter := expr; ctx_script := filterScript (d st);
                          ctx_packets := [] |})
    by (simpl; apply lookup_insert_eq).
  destruct (run_group_packets key name _ ops _ _ _ Hinv1 Hops Hfc1 Hc1 Hrun)
    as (Hfc' & c' & Hc' & Hv).
  split; [done|].
  exists (SequenceSetOps.get start end_ (ctx_packets c')).
  assert (Hmem : ∀ v, v ∈ SequenceSetOps.get start end_ (ctx_packets c') ↔
                      Session.OpFilterInsert a_new v ∈ ops ∧ (start ≤ v < end_)%Z).
  { intros v. rewrite SequenceSet_elem_of_get, Hv. simpl. rewrite elem_of_nil.
    fold a_new. tauto. }
  split; [|split; [done|]].
  - unfold Session.getFiltered. rewrite Hfc'. simpl in Hc'. simpl. by rewrite Hc'.
  - intros c_old v _ _ Hnot Hin. apply Hmem in Hin. tauto.
Qed.

(** C3: removing a group.  [Session::filter name ""] erases the group under
    [name], allocates no context and starts no thread (the only effects are
    the destruction of the old group, if any, and one status signal), and
    until a group is installed under [name] again every [getFiltered name]
    returns the empty list, for any range. *)
Theorem filter_empty_removes_group name st ops st' start end_ :
  Forall (λ op, installs name op = false) ops →
  Session.run key ops (Session.filter name "" st) = Some st' →
  let st1 := Session.filter name "" st in
  filterThreads (d st1) !! name = None
  ∧ trace st1 = trace st
                ++ match filterThreads (d st) !! name with
                   | Some fc => [EvFilterContextDestroyed (fc_ctx fc) (length (fc_threads fc))]
                   | None => []
                   end
                ++ [EvAsyncSend StatusSignal]
  ∧ next st1 = next st
  ∧ Session.getFiltered name start end_ st' = Some [].
Proof.
  intros Hops Hrun st1.
  assert (Hnone : filterThreads (d st1) !! name = None) by apply filter_empty_lookup.
  split; [done|]. split; [|split].
  - subst st1. unfold Session.filter, Session.erase. simpl.
    destruct (filterThreads (d st) !! name); simpl; by rewrite <- ?app_assoc.
  - subst st1. unfold Session.filter, Session.erase. simpl.
    by destruct (filterThreads (d st) !! name).
  - unfold Session.getFiltered.
    by rewrite (run_keeps_absent key name ops st1 st' Hops Hnone Hrun).
Qed.

(** C9: reading a name without a group.  When no group is installed under
    [name], [Session::getFiltered name start end] returns the empty list,
    for every [start] and [end], and dereferences nothing. *)
Theorem getFiltered_without_group name start end_ st :
  filterThreads (d st) !! name = None →
  Session.getFiltered name start end_ st = Some [].
Proof. intros Hnone. unfold Session.getFiltered. by rewrite Hnone. Qed.

End Filters.

(** ** The status signal *)

Section Status.
Variable key : LogMessage → string.

Lemma foldl_set_filtered st (l : list (string * FilterContext)) m0 :
  NoDup l.*1 →
  Forall (λ p, Session.c_str p.1 = p.1 ∧ is_Some (heap st !! fc_ctx p.2)) l →
  (∀ name fc, (name, fc) ∈ l →
     ∃ c, heap st !! fc_ctx fc = Some c
          ∧ foldl (Session.set_filtered st) m0 l !! name
            = Some (SequenceSetOps.size (ctx_packets c)))
  ∧ (∀ name, name ∉ l.*1 → foldl (Session.set_filtered st) m0 l !! name = m0 !! name).
Proof.
  induction l as [|[n fc] l IH] using rev_ind; intros Hnd Hall.
  - split; [intros name fc Hin; by apply elem_of_nil in Hin | done].
  - rewrite fmap_app in Hnd. apply NoDup_app in Hnd as (Hnd & Hfresh & _).
    apply Forall_app in Hall as [Hall Hp]. apply Forall_singleton in Hp as [Hplain [c Hc]].
    simpl in Hplain, Hc.
    destruct (IH Hnd Hall) as [IHa IHb].
    assert (Hn : n ∉ l.*1).
    { intros Hin. apply (Hfresh n Hin). simpl. apply list_elem_of_singleton. done. }
    rewrite foldl_app. simpl. unfold Session.set_filtered at 1 3. simpl.
    rewrite Hc, Hplain. split.
    + intros name fc' Hin. apply elem_of_app in Hin as [Hin|Hin].
      * assert (name ≠ n).
        { intros ->. apply Hn. apply list_elem_of_fmap. by exists (n, fc'). }
        rewrite lookup_insert_ne by done. by apply IHa.
      * apply list_elem_of_singleton in Hin. simplify_eq.
        exists c. split; [done|]. apply lookup_insert_eq.
    + intros name Hnot. rewrite fmap_app in Hnot.
      apply not_elem_of_app in Hnot as [Hnot Hne]. simpl in Hne.
      rewrite lookup_insert_ne; [by apply IHb|].
      intros ->. apply Hne. by apply list_elem_of_singleton.
Qed.

Lemma filtered_sizes_inv st :
  inv st →
  plain_names st →
  ∃ m, Session.filtered_sizes st = Some m
       ∧ dom m = dom (filterThreads (d st))
       ∧ ∀ name fc, filterThreads (d st) !! name = Some fc →
           ∃ c, heap st !! fc_ctx fc = Some c
                ∧ m !! name = Some (SequenceSetOps.size (ctx_packets c)).
Proof.
  intros Hinv Hplain. unfold Session.filtered_sizes.
  rewrite bool_decide_eq_true_2
    by (intros name fc Hfc; by eapply (inv_live _ Hinv)).
  destruct (foldl_set_filtered st (map_to_list (filterThreads (d st))) ∅)
    as [Ha Hb].
  { apply NoDup_fst_map_to_list. }
  { apply Forall_forall. intros [name fc] Hin. apply elem_of_map_to_list in Hin.
    simpl. split; [by apply (Hplain name fc) | by eapply (inv_live _ Hinv)]. }
  eexists. split; [done|]. split.
  - apply set_eq. intros name. rewrite !elem_of_dom.
    destruct (filterThreads (d st) !! name) as [fc|] eqn:Hfc.
    + destruct (Ha name fc) as (c & _ & Hm); [by apply elem_of_map_to_list|].
      rewrite Hm. split; intros _; by eexists.
    + rewrite Hb, lookup_empty; [done|].
      intros Hin. apply list_elem_of_fmap in Hin as ([n fc] & -> & Hin).
      apply elem_of_map_to_list in Hin. simpl in Hfc. congruence.
  - intros name fc Hfc. apply Ha. by apply elem_of_map_to_list.
Qed.

Lemma filter_trace name expr st :
  ∃ evs, trace (Session.filter name expr st) = trace st ++ evs
         ∧ ∀ cb obj, EvStatusCall cb obj ∉ evs.
Proof.
  unfold Session.filter, Session.erase, Session.install.
  destruct (filterThreads (d st) !! name) as [fc|]; case_bool_decide; simpl;
    rewrite <- ?app_assoc; eexists; (split; [reflexivity|]);
    intros cb obj Hin; simpl in Hin;
    repeat (apply elem_of_cons in Hin as [Hin|Hin]; [discriminate|]);
    try (apply elem_of_app in Hin as [Hin|Hin];
         [apply elem_of_replicate in Hin as [Hin _]; discriminate|]);
    no_status_call Hin.
Qed.

(** X18: the payload of the status callback while every installed group has a
    name without an embedded NUL.  In such a reachable state, the only step
    that calls the status callback is the event loop running the status
    handler; it makes exactly one call, and the object it passes holds the
    capturing flag and the store's maximum sequence number as they are at
    that moment, and under [filtered] one property per installed group, its
    name mapped to the size of that group's result set.  With a status
    callback installed the handler always makes that call. *)
Lemma status_callback_payload_plain_names option hw indet ops st :
  Session.run key ops (Session.Session_new option hw indet) = Some st →
  plain_names st →
  (∀ op st', Session.step key op st = Some st' →
     ∃ evs, trace st' = trace st ++ evs
       ∧ ∀ cb obj, EvStatusCall cb obj ∈ evs →
           op = Session.OpStatusAsync
           ∧ statusCb (d st) = Some cb
           ∧ evs = [EvStatusCall cb obj]
           ∧ so_capturing obj = capturing (d st)
           ∧ so_packets obj = PacketStoreOps.maxSeq (store (d st))
           ∧ dom (so_filtered obj) = dom (filterThreads (d st))
           ∧ ∀ name fc, filterThreads (d st) !! name = Some fc →
               ∃ c, heap st !! fc_ctx fc = Some c
                    ∧ so_filtered obj !! name
                      = Some (SequenceSetOps.size (ctx_packets c)))
  ∧ (∀ cb, statusCb (d st) = Some cb →
       ∃ st' obj, Session.step key Session.OpStatusAsync st = Some st'
                  ∧ trace st' = trace st ++ [EvStatusCall cb obj]).
Proof.
  intros Hreach Hplain. pose proof (inv_reachable key _ _ _ _ _ Hreach) as Hinv.
  destruct (filtered_sizes_inv st Hinv Hplain) as (m & Hm & Hdom & Hsizes).
  split.
  - intros op st' Hstep.
    destruct op; simpl in Hstep; invert_step Hstep;
      try (exists []; split; [by rewrite app_nil_r|];
           intros cbx obj Hin; no_status_call Hin);
      try (eexists; split; [reflexivity|];
           intros cbx obj Hin; no_status_call Hin).
    + (* filter *)
      destruct (filter_trace name expr st) as (evs & Hevs & Hno).
      exists evs. split; [done|]. intros cbx obj Hin. by apply Hno in Hin.
    + (* the status handler *)
      eexists; split; [reflexivity|]. intros cbx obj Hin.
      apply list_elem_of_singleton in Hin. simplify_eq. simpl.
      repeat split; done.
    + (* the log handler *)
      unfold Session.logCbAsync_handler. destruct (logCb (d st)); simpl.
      * eexists; split; [reflexivity|]. intros cbx obj Hin.
        apply list_elem_of_fmap in Hin as (msg & Heq & _). discriminate.
      * exists []; split; [by rewrite app_nil_r|].
        intros cbx obj Hin; no_status_call Hin.
  - intros cb Hcb. simpl. unfold Session.statusCbAsync_handler.
    rewrite Hcb, Hm. simpl. by do 2 eexists.
Qed.

(** C4 fails for a group whose name has an embedded NUL: the status handler
    passes [pair.first.c_str()], so the property it defines is called by the
    characters before the NUL.  With one group installed under [nul_name]
    and two matches, the object passed to the callback has the capturing
    flag and the packet count, but under [filtered] it has no property
    called [nul_name]; it has a property "a", the name of no group. *)
Theorem status_payload_truncates_name :
  map_to_list (filterThreads (d nul_session))
  = [(nul_name, {| fc_threads := [ {| ft_ctx := 0 |}; {| ft_ctx := 0 |} ]; fc_ctx := 0 |})]
  ∧ Session.getFiltered nul_name 0 10 nul_session = Some [1; 2]%Z
  ∧ ∃ obj, Session.statusCbAsync_handler nul_session
           = Some (emit [EvStatusCall 7 obj] nul_session)
           ∧ so_capturing obj = false
           ∧ so_packets obj = 0%Z
           ∧ so_filtered obj !! nul_name = None
           ∧ map_to_list (so_filtered obj) = [("a", 2%Z)].
Proof.
  split; [vm_compute; reflexivity|].
  split; [vm_compute; reflexivity|].
  eexists. split; [vm_compute; reflexivity|].
  cbn [so_capturing so_packets so_filtered].
  split; [reflexivity|]. split; [reflexivity|].
  split; vm_compute; reflexivity.
Qed.

End Status.

(** ** The log signal *)

Section Logs.
Variable key : LogMessage → string.

Lemma record_all_snoc msgs msg m :
  record_all key (msgs ++ [msg]) m = <[key msg := msg]> (record_all key msgs m).
Proof. unfold record_all. by rewrite foldl_app. Qed.

Lemma latest_snoc k msgs msg :
  latest key k (msgs ++ [msg])
  = if bool_decide (key msg = k) then Some msg else latest key k msgs.
Proof.
  unfold latest. rewrite List.filter_app. simpl.
  case_bool_decide; [apply last_snoc | by rewrite app_nil_r].
Qed.

Lemma record_all_lookup msgs m k :
  record_all key msgs m !! k
  = match latest key k msgs with Some x => Some x | None => m !! k end.
Proof.
  induction msgs as [|msg msgs IH] using rev_ind; [done|].
  rewrite record_all_snoc, latest_snoc. case_bool_decide as Hk.
  - subst k. apply lookup_insert_eq.
  - by rewrite lookup_insert_ne.
Qed.

Lemma latest_Some k msgs msg :
  latest key k msgs = Some msg → key msg = k ∧ msg ∈ msgs.
Proof.
  unfold latest. intros Hlast.
  assert (Hin : In msg (List.filter (λ x, bool_decide (key x = k)) msgs)).
  { apply list_elem_of_In. apply last_Some in Hlast as [l' ->].
    apply elem_of_app. right. by apply list_elem_of_singleton. }
  apply filter_In in Hin as [Hin Hk]. apply bool_decide_eq_true in Hk.
  split; [done | by apply list_elem_of_In].
Qed.

Lemma latest_is_Some msgs msg :
  msg ∈ msgs → is_Some (latest key (key msg) msgs).
Proof.
  intros Hin. unfold latest.
  assert (Hf : In msg (List.filter (λ x, bool_decide (key x = key msg)) msgs)).
  { apply filter_In. split; [by apply list_elem_of_In | by apply bool_decide_eq_true]. }
  destruct (List.filter _ msgs) as [|x l] eqn:Hl using rev_ind; [done|].
  rewrite last_snoc. by eexists.
Qed.

Lemma batch_of_elem_of msgs msg :
  msg ∈ batch_of key msgs ↔ latest key (key msg) msgs = Some msg.
Proof.
  unfold batch_of. rewrite list_elem_of_fmap. split.
  - intros ([k x] & -> & Hin). simpl.
    apply elem_of_map_to_list in Hin. rewrite record_all_lookup, lookup_empty in Hin.
    destruct (latest key k msgs) as [y|] eqn:Hy; simplify_eq.
    apply latest_Some in Hy as Hk. destruct Hk as [<- _]. done.
  - intros Hlast. exists (key msg, msg). split; [done|].
    apply elem_of_map_to_list. by rewrite record_all_lookup, Hlast.
Qed.

Lemma batch_of_keys msgs :
  key <$> batch_of key msgs = (map_to_list (record_all key msgs ∅)).*1.
Proof.
  unfold batch_of.
  assert (Hall : Forall (λ p, key p.2 = p.1) (map_to_list (record_all key msgs ∅))).
  { apply Forall_forall. intros [k x] Hin. simpl.
    apply elem_of_map_to_list in Hin. rewrite record_all_lookup, lookup_empty in Hin.
    destruct (latest key k msgs) as [y|] eqn:Hy; simplify_eq.
    by apply latest_Some in Hy as [? _]. }
  induction Hall as [|p l Hp Hl IH]; [done|].
  rewrite !fmap_cons. f_equal; [done | exact IH].
Qed.

Lemma batch_of_NoDup msgs : NoDup (key <$> batch_of key msgs).
Proof. rewrite batch_of_keys. apply NoDup_fst_map_to_list. Qed.

Lemma record_all_app msgs1 msgs2 m :
  record_all key (msgs1 ++ msgs2) m = record_all key msgs2 (record_all key msgs1 m).
Proof. unfold record_all. apply foldl_app. Qed.

Lemma record_all_replicate n msg m :
  record_all key (replicate (S n) msg) m = <[key msg := msg]> m.
Proof.
  revert m. induction n as [|n IH]; intros m; [done|].
  change (replicate (S (S n)) msg) with (msg :: replicate (S n) msg).
  change (record_all key (msg :: replicate (S n) msg) m)
    with (record_all key (replicate (S n) msg) (<[key msg := msg]> m)).
  rewrite IH. apply insert_insert_eq.
Qed.

Lemma batch_of_repeat pre msg n post :
  batch_of key (pre ++ replicate (S n) msg ++ post)
  = batch_of key (pre ++ [msg] ++ post).
Proof.
  unfold batch_of. change [msg] with (replicate 1 msg).
  by rewrite !record_all_app, !record_all_replicate.
Qed.

Lemma step_recentLogs op st st' :
  Session.step key op st = Some st' →
  recentLogs (d st')
  = match op with
    | Session.OpLog msg => <[key msg := msg]> (recentLogs (d st))
    | Session.OpLogAsync =>
        if logCb (d st) is Some _ then ∅ else recentLogs (d st)
    | _ => recentLogs (d st)
    end.
Proof.
  intros Hstep. destruct op; simpl in Hstep; invert_step Hstep; try done.
  - unfold Session.filter, Session.erase.
    destruct (filterThreads (d st) !! name); by case_bool_decide.
  - unfold Session.logCbAsync_handler. by destruct (logCb (d st)).
Qed.

Lemma run_recentLogs ops : ∀ st st',
  no_delivery key ops st = true →
  Session.run key ops st = Some st' →
  recentLogs (d st') = record_all key (logs_of ops) (recentLogs (d st)).
Proof.
  induction ops as [|op ops IH]; intros st st' Hquiet Hrun; simpl in *.
  - by simplify_eq.
  - destruct (Session.step key op st) as [st1|] eqn:Hstep; simplify_eq/=.
    apply andb_true_iff in Hquiet as [Hop Hquiet].
    rewrite (IH _ _ Hquiet Hrun), (step_recentLogs _ _ _ Hstep).
    destruct op; try done. by destruct (logCb (d st)).
Qed.

(** C2: one log delivery.  Take a delivery of the log callback, then any
    steps of the Session during which no further delivery happens, then the
    next delivery.  The messages emitted in between through [Private::log]
    are [logs_of ops].  The second delivery calls the callback once per
    entry of the batch; the batch holds at most one message per
    deduplication key, a message is in it exactly when it is the latest one
    emitted under its key, every emitted key is represented, and
    [recentLogs] is empty afterwards.  Hence a run in which a message is
    emitted several times in a row yields the same batch as a run in which
    it is emitted once. *)
Theorem log_delivery_deduplicates st0 cb0 ops st cb :
  logCb (d st0) = Some cb0 →
  no_delivery key ops (Session.logCbAsync_handler st0) = true →
  Session.run key ops (Session.logCbAsync_handler st0) = Some st →
  logCb (d st) = Some cb →
  let msgs := logs_of ops in
  let st' := Session.logCbAsync_handler st in
  trace st' = trace st ++ ((λ msg, EvLogCall cb (Session.log_object msg))
                             <$> Session.log_batch st)
  ∧ NoDup (key <$> Session.log_batch st)
  ∧ (∀ msg, msg ∈ Session.log_batch st ↔ latest key (key msg) msgs = Some msg)
  ∧ (∀ msg, msg ∈ msgs → ∃ msg', msg' ∈ Session.log_batch st ∧ key msg' = key msg)
  ∧ recentLogs (d st') = ∅
  ∧ (∀ ops2 st2 pre msg n post,
       no_delivery key ops2 (Session.logCbAsync_handler st0) = true →
       Session.run key ops2 (Session.logCbAsync_handler st0) = Some st2 →
       msgs = pre ++ replicate (S n) msg ++ post →
       logs_of ops2 = pre ++ [msg] ++ post →
       Session.log_batch st2 = Session.log_batch st).
Proof.
  intros Hcb0 Hquiet Hrun Hcb msgs st'.
  assert (Hempty : recentLogs (d (Session.logCbAsync_handler st0)) = ∅)
    by (unfold Session.logCbAsync_handler; by rewrite Hcb0).
  assert (Hbatch : Session.log_batch st = batch_of key msgs).
  { unfold Session.log_batch, batch_of.
    by rewrite (run_recentLogs _ _ _ Hquiet Hrun), Hempty. }
  split; [|split; [|split; [|split; [|split]]]].
  - subst st'. unfold Session.logCbAsync_handler. by rewrite Hcb.
  - rewrite Hbatch. apply batch_of_NoDup.
  - intros msg. rewrite Hbatch. apply batch_of_elem_of.
  - intros msg Hin. destruct (latest_is_Some _ _ Hin) as [msg' Hlast].
    exists msg'. rewrite Hbatch.
    apply latest_Some in Hlast as Hk. destruct Hk as [Hk _].
    split; [|done]. apply batch_of_elem_of. by rewrite Hk.
  - subst st'. unfold Session.logCbAsync_handler. by rewrite Hcb.
  - intros ops2 st2 pre msg n post Hquiet2 Hrun2 Hmsgs Hmsgs2.
    rewrite Hbatch, Hmsgs, batch_of_repeat, <- Hmsgs2.
    unfold Session.log_batch, batch_of.
    by rewrite (run_recentLogs _ _ _ Hquiet2 Hrun2), Hempty.
Qed.

End Logs.

(** ** Construction, capture control, hand-off of packets *)

Section Control.
Variable key : LogMessage → string.

Lemma step_pcap op st st' :
  Session.step key op st = Some st' → is_Some (pcap (d st)) → is_Some (pcap (d st')).
Proof.
  intros Hstep Hp. destruct op; simpl in Hstep; invert_step Hstep; try done.
  - unfold Session.filter, Session.erase.
    destruct (filterThreads (d st) !! name); by case_bool_decide.
  - unfold Session.logCbAsync_handler. by destruct (logCb (d st)).
Qed.

Lemma run_pcap ops : ∀ st st',
  Session.run key ops st = Some st' → is_Some (pcap (d st)) → is_Some (pcap (d st')).
Proof.
  induction ops as [|op ops IH]; intros st st' Hrun Hp; simpl in Hrun.
  - by simplify_eq.
  - destruct (Session.step key op st) as [st1|] eqn:Hstep; simplify_eq/=.
    eapply IH; [done|]. by eapply step_pcap.
Qed.

(** Capture control on a Session that has a frame source.  In a Session
    built from an option object, [Session::start] starts the frame source,
    sets [capturing] and then raises the status signal; [Session::stop]
    stops the frame source, clears [capturing] and then raises the status
    signal; neither changes the store, the queue, the installed filter
    groups or their contexts. *)
Theorem start_stop_effects o hw indet ops st :
  Session.run key ops (Session.Session_new (OptObject o) hw indet) = Some st →
  (∃ st1, Session.start st = Some st1
          ∧ capturing (d st1) = true
          ∧ pcap_running <$> pcap (d st1) = Some true
          ∧ trace st1 = trace st ++ [EvPcapStart; EvAsyncSend StatusSignal]
          ∧ store (d st1) = store (d st)
          ∧ queue (d st1) = queue (d st)
          ∧ filterThreads (d st1) = filterThreads (d st)
          ∧ heap st1 = heap st)
  ∧ (∃ st2, Session.stop st = Some st2
          ∧ capturing (d st2) = false
          ∧ pcap_running <$> pcap (d st2) = Some false
          ∧ trace st2 = trace st ++ [EvPcapStop; EvAsyncSend StatusSignal]
          ∧ store (d st2) = store (d st)
          ∧ queue (d st2) = queue (d st)
          ∧ filterThreads (d st2) = filterThreads (d st)
          ∧ heap st2 = heap st).
Proof.
  intros Hrun.
  assert (Hp : is_Some (pcap (d st))).
  { eapply run_pcap; [done|]. simpl. by eexists. }
  destruct Hp as [src Hsrc]. unfold Session.start, Session.stop. rewrite Hsrc. simpl.
  split; eexists; (split; [reflexivity|]); simpl; repeat split.
Qed.

(** C7 fails on a Session built without an option object: the constructor
    has returned before it created the frame source, [d->pcap] is null, and
    [Session::start] and [Session::stop] dereference it first; [capturing]
    is not set and no status signal is raised.  This holds for a value that
    is not an object and for an empty handle alike. *)
Theorem start_stop_without_frame_source hw indet :
  let st := Session.Session_new OptNotObject hw indet in
  let st0 := Session.Session_new OptEmpty hw indet in
  pcap (d st) = None
  ∧ capturing (d st) = false
  ∧ trace st = []
  ∧ Session.start st = None
  ∧ Session.stop st = None
  ∧ pcap (d st0) = None
  ∧ Session.start st0 = None
  ∧ Session.stop st0 = None.
Proof. simpl. repeat split. Qed.

(** C10: construction without an option object.  When the option value is
    an empty handle or not an object, [Session::Session] stops after
    [Private()]: there are no dissector threads, no stream dispatcher and no
    frame source, nothing was created, the namespace and the filter script
    are empty strings, and no filter group or context exists. *)
Theorem Session_new_without_object option hw indet :
  option = OptEmpty ∨ option = OptNotObject →
  let st := Session.Session_new option hw indet in
  dissectorThreads (d st) = []
  ∧ streamDispatcher (d st) = None
  ∧ pcap (d st) = None
  ∧ ns (d st) = ""
  ∧ filterScript (d st) = ""
  ∧ filterThreads (d st) = ∅
  ∧ heap st = ∅
  ∧ trace st = [].
Proof. intros [->| ->]; simpl; repeat split. Qed.

(** The thread count [Session::Session] computes, for every configured
    value, and where it is used. *)
Lemma Session_new_threads o hw indet n name expr :
  opt_threads o = Some n →
  expr ≠ "" →
  let t := Z.max 1 (wrap32 (n - 1)) in
  let st := Session.Session_new (OptObject o) hw indet in
  threads (d st) = t
  ∧ length (dissectorThreads (d st)) = Z.to_nat t
  ∧ sd_threads <$> streamDispatcher (d st) = Some t
  ∧ (length ∘ fc_threads) <$> filterThreads (d (Session.filter name expr st)) !! name
    = Some (Z.to_nat t).
Proof.
  intros Hn Hexpr t st. subst st. unfold Session.Session_new, Session.get_option.
  rewrite Hn. cbn [default d threads dissectorThreads streamDispatcher fmap option_fmap option_map sd_threads].
  fold t. split; [done|]. split; [apply length_replicate|]. split; [done|].
  unfold Session.filter, Session.erase. cbn [d filterThreads Session.Private_new].
  rewrite lookup_empty, bool_decide_eq_false_2 by done.
  unfold Session.install, emit. cbn [d filterThreads with_filterThreads threads].
  rewrite lookup_insert_eq. cbn. f_equal. apply length_replicate.
Qed.

(** For every configured value other than [INT_MIN] the count is
    [max(1, n - 1)]. *)
Lemma Session_new_threads_in_range o hw indet n name expr :
  opt_threads o = Some n →
  (INT_MIN < n ≤ INT_MAX)%Z →
  expr ≠ "" →
  let t := Z.max 1 (n - 1) in
  let st := Session.Session_new (OptObject o) hw indet in
  threads (d st) = t
  ∧ length (dissectorThreads (d st)) = Z.to_nat t
  ∧ sd_threads <$> streamDispatcher (d st) = Some t
  ∧ (length ∘ fc_threads) <$> filterThreads (d (Session.filter name expr st)) !! name
    = Some (Z.to_nat t).
Proof.
  intros Hn Hrange Hexpr.
  pose proof (Session_new_threads o hw indet n name expr Hn Hexpr) as H.
  rewrite wrap32_id in H; [exact H|].
  unfold in_int, INT_MIN, INT_MAX in *. lia.
Qed.

(** C6 fails for the configured value [INT_MIN]: [d->threads - 1] overflows
    [int], the result wraps to [INT_MAX], and that is the count the Session
    keeps and uses for its dissector threads, its stream dispatcher and its
    filter groups, where [max(1, n - 1)] is 1. *)
Theorem Session_threads_overflow hw indet :
  let st := Session.Session_new (OptObject options_int_min) hw indet in
  opt_threads options_int_min = Some INT_MIN
  ∧ threads (d st) = INT_MAX
  ∧ Z.max 1 (INT_MIN - 1) = 1%Z
  ∧ length (dissectorThreads (d st)) = Z.to_nat INT_MAX
  ∧ sd_threads <$> streamDispatcher (d st) = Some INT_MAX
  ∧ (length ∘ fc_threads)
      <$> filterThreads (d (Session.filter "even" "seq % 2 == 0" st)) !! "even"
    = Some (Z.to_nat INT_MAX).
Proof.
  assert (Hn : opt_threads options_int_min = Some INT_MIN) by reflexivity.
  assert (Hexpr : "seq % 2 == 0" ≠ "") by discriminate.
  pose proof (Session_new_threads options_int_min hw indet INT_MIN
                "even" "seq % 2 == 0" Hn Hexpr) as H.
  assert (Ht : Z.max 1 (wrap32 (INT_MIN - 1)) = INT_MAX) by reflexivity.
  rewrite Ht in H. destruct H as (H1 & H2 & H3 & H4). intros st.
  split; [exact Hn|]. split; [exact H1|]. split; [reflexivity|].
  split; [exact H2|]. split; [exact H3 | exact H4].
Qed.



End Control.

(** ** Destruction *)

Section Destruction.
Import DissectorPool.

Lemma turn_closed i p :
  q_closed (pool_queue (turn i p)) = q_closed (pool_queue p).
Proof.
  unfold turn. destruct (pool_workers p !! i) as [[|]|]; try done.
  unfold PacketQueueOps.pop. destruct (q_items (pool_queue p)); [|done].
  destruct (q_closed (pool_queue p)) eqn:Hc; simpl; by rewrite ?Hc.
Qed.

Lemma turn_length i p :
  length (pool_workers (turn i p)) = length (pool_workers p).
Proof.
  unfold turn. destruct (pool_workers p !! i) as [[|]|]; try done.
  unfold PacketQueueOps.pop. destruct (q_items (pool_queue p)); [|done].
  destruct (q_closed (pool_queue p)); [|done]. simpl. apply length_insert.
Qed.

Lemma pool_step_closed s p :
  q_closed (pool_queue p) = true → q_closed (pool_queue (pool_step s p)) = true.
Proof.
  intros Hc. destruct s as [i|pkt]; simpl.
  - by rewrite turn_closed.
  - by rewrite PacketQueue_push_closed.
Qed.

Lemma pool_step_length s p :
  length (pool_workers (pool_step s p)) = length (pool_workers p).
Proof. destruct s; [apply turn_length | done]. Qed.

Lemma schedule_length steps : ∀ p,
  length (pool_workers (schedule steps p)) = length (pool_workers p).
Proof.
  induction steps as [|s steps IH]; intros p; simpl; [done|].
  by rewrite IH, pool_step_length.
Qed.

(** One step of the pool keeps the measure: a worker that has exited stays
    so, and a worker that still has more turns to come than packets to pop
    either exits or keeps that margin. *)
Lemma pool_step_progress s steps i p :
  q_closed (pool_queue p) = true →
  i < length (pool_workers p) →
  pool_workers p !! i = Some Exited
    ∨ length (q_items (pool_queue p)) < turns_of i (s :: steps) →
  pool_workers (pool_step s p) !! i = Some Exited
    ∨ length (q_items (pool_queue (pool_step s p))) < turns_of i steps.
Proof.
  intros Hc Hi Hm. destruct s as [j|pkt]; simpl in *.
  - unfold turn, PacketQueueOps.pop.
    destruct (pool_workers p !! j) as [[|]|] eqn:Hj.
    + destruct (q_items (pool_queue p)) as [|x rest] eqn:Hitems; simpl in *.
      * rewrite Hc. simpl. destruct (decide (i = j)) as [->|Hne].
        -- left. by apply list_lookup_insert_eq.
        -- rewrite list_lookup_insert_ne by done.
           rewrite bool_decide_eq_false_2 in Hm by done.
           destruct Hm as [Hm|Hm]; [by left | right; rewrite Hitems; simpl; lia].
      * destruct Hm as [Hm|Hm]; [by left | right].
        case_bool_decide; lia.
    + destruct (decide (i = j)) as [->|Hne]; [by left|].
      rewrite bool_decide_eq_false_2 in Hm by done. done.
    + destruct (decide (i = j)) as [->|Hne].
      * apply lookup_ge_None in Hj. lia.
      * rewrite bool_decide_eq_false_2 in Hm by done. done.
  - by rewrite PacketQueue_push_closed.
Qed.

Lemma schedule_exits steps : ∀ i p,
  q_closed (pool_queue p) = true →
  i < length (pool_workers p) →
  pool_workers p !! i = Some Exited
    ∨ length (q_items (pool_queue p)) < turns_of i steps →
  pool_workers (schedule steps p) !! i = Some Exited.
Proof.
  induction steps as [|s steps IH]; intros i p Hc Hi Hm; simpl.
  - destruct Hm as [Hm|Hm]; [done | simpl in Hm; lia].
  - apply IH.
    + by apply pool_step_closed.
    + by rewrite pool_step_length.
    + by apply pool_step_progress.
Qed.

(** C8: destruction.  [~Private] closes the queue first; the dissector
    threads, the filter groups, the stream dispatcher and the frame source
    are destroyed after that, in this order, and the two async handles are
    closed last.  From the close on every push is dropped, so the queue only
    shrinks, and under every interleaving of the dissector threads' turns
    with further pushes in which each thread gets more turns than there were
    packets left, every dissector thread has left its loop. *)
Theorem destroy_closes_queue_first st steps :
  (∀ i, i < length (dissectorThreads (d st)) →
        length (q_items (queue (d st))) < turns_of i steps) →
  let st' := Session.Private_destroy st in
  trace st' = trace st
              ++ [EvQueueClose]
              ++ [EvDissectorThreadsDestroyed (length (dissectorThreads (d st)))]
              ++ Session.destroy_group_events (map_to_list (filterThreads (d st)))
              ++ (if streamDispatcher (d st) is Some _
                  then [EvStreamDispatcherDestroyed] else [])
              ++ (if pcap (d st) is Some _ then [EvPcapDestroyed] else [])
              ++ [EvUvClose StatusSignal; EvUvClose LogSignal]
  ∧ q_closed (queue (d (Session.close_queue st))) = true
  ∧ q_closed (queue (d st')) = true
  ∧ (∀ pkt, PacketQueueOps.push pkt (queue (d st')) = queue (d st'))
  ∧ pool_workers (schedule steps (pool_after_close st))
    = replicate (length (dissectorThreads (d st))) Exited
  ∧ dissectorThreads (d st') = []
  ∧ filterThreads (d st') = ∅
  ∧ streamDispatcher (d st') = None
  ∧ pcap (d st') = None.
Proof.
  intros Hfair st'. split; [|split; [done|split; [done|split; [|split]]]].
  - subst st'. unfold Session.Private_destroy. simpl. by rewrite <- !app_assoc.
  - intros pkt. by apply PacketQueue_push_closed.
  - apply list_eq_same_length with (length (dissectorThreads (d st))).
    + apply length_replicate.
    + rewrite schedule_length. unfold pool_after_close, of_session. simpl.
      apply length_replicate.
    + intros i x y Hi Hx Hy.
      rewrite schedule_exits in Hx.
      * apply lookup_replicate in Hy as [-> _]. by simplify_eq.
      * done.
      * unfold pool_after_close, of_session. simpl. by rewrite length_replicate.
      * right. unfold pool_after_close, of_session. simpl. by apply Hfair.
  - done.
Qed.

End Destruction.

(** ** The theorems at concrete inputs *)

Lemma filter_replace_reads_new_set_witness :
  Session.run LogMessage_key even_ops
    (Session.Session_new (OptObject example_options) 8 0) = Some even_session
  ∧ filterThreads (d even_session) !! "even" = Some even_group
  ∧ Session.run LogMessage_key later_ops
      (Session.filter "even" "seq % 3 == 0" even_session)
    = Some (after later_ops (Session.filter "even" "seq % 3 == 0" even_session))
  ∧ Session.getFiltered "even" 1 11 even_session = Some [2; 4]%Z
  ∧ Session.getFiltered "even" 1 11
      (after later_ops (Session.filter "even" "seq % 3 == 0" even_session))
    = Some [3; 6]%Z
  ∧ ∃ l, Session.getFiltered "even" 1 11
           (after later_ops (Session.filter "even" "seq % 3 == 0" even_session))
         = Some l
         ∧ (∀ v, v ∈ l ↔ Session.OpFilterInsert 1 v ∈ later_ops ∧ (1 ≤ v < 11)%Z).
Proof.
  assert (H0 : Session.run LogMessage_key even_ops
                 (Session.Session_new (OptObject example_options) 8 0)
               = Some even_session) by (vm_compute; reflexivity).
  assert (H1 : filterThreads (d even_session) !! "even" = Some even_group)
    by (vm_compute; reflexivity).
  assert (H2 : "seq % 3 == 0" ≠ "") by discriminate.
  assert (H3 : Forall (λ op, touches "even" op = false) later_ops)
    by (repeat constructor).
  assert (H4 : Session.run LogMessage_key later_ops
                 (Session.filter "even" "seq % 3 == 0" even_session)
               = Some (after later_ops
                         (Session.filter "even" "seq % 3 == 0" even_session)))
    by (vm_compute; reflexivity).
  destruct (filter_replace_reads_new_set LogMessage_key _ _ _ _ _ _ _ _ _ _ 1%Z 11%Z
              H0 H1 H2 H3 H4) as (_ & _ & _ & _ & _ & l & Hl & Hiff & _).
  split; [exact H0|]. split; [exact H1|]. split; [exact H4|].
  split; [vm_compute; reflexivity|]. split; [vm_compute; reflexivity|].
  exists l. split; [exact Hl | exact Hiff].
Defined.

Lemma filter_empty_removes_group_witness :
  Forall (λ op, installs "even" op = false) idle_ops
  ∧ Session.run LogMessage_key idle_ops (Session.filter "even" "" even_session)
    = Some (after idle_ops (Session.filter "even" "" even_session))
  ∧ filterThreads (d (Session.filter "even" "" even_session)) !! "even" = None
  ∧ trace (Session.filter "even" "" even_session)
    = trace even_session ++ [EvFilterContextDestroyed 0 2; EvAsyncSend StatusSignal]
  ∧ Session.getFiltered "even" 0 100
      (after idle_ops (Session.filter "even" "" even_session)) = Some [].
Proof.
  assert (H0 : Forall (λ op, installs "even" op = false) idle_ops)
    by (repeat constructor).
  assert (H1 : Session.run LogMessage_key idle_ops (Session.filter "even" "" even_session)
               = Some (after idle_ops (Session.filter "even" "" even_session)))
    by (vm_compute; reflexivity).
  destruct (filter_empty_removes_group LogMessage_key "even" even_session idle_ops
              _ 0%Z 100%Z H0 H1) as (Hnone & _ & _ & Hget).
  split; [exact H0|]. split; [exact H1|]. split; [exact Hnone|].
  split; [vm_compute; reflexivity | exact Hget].
Defined.

Lemma getFiltered_without_group_witness :
  filterThreads (d even_session) !! "tcp" = None
  ∧ Session.getFiltered "tcp" 1 11 even_session = Some [].
Proof.
  assert (H0 : filterThreads (d even_session) !! "tcp" = None)
    by (vm_compute; reflexivity).
  split; [exact H0|].
  exact (getFiltered_without_group "tcp" 1%Z 11%Z even_session H0).
Defined.

Lemma log_delivery_deduplicates_witness :
  logCb (d logging_session) = Some 9
  ∧ no_delivery LogMessage_key logging_ops
      (Session.logCbAsync_handler logging_session) = true
  ∧ Session.run LogMessage_key logging_ops (Session.logCbAsync_handler logging_session)
    = Some (after logging_ops (Session.logCbAsync_handler logging_session))
  ∧ logCb (d (after logging_ops (Session.logCbAsync_handler logging_session))) = Some 5
  ∧ length (Session.log_batch
              (after logging_ops (Session.logCbAsync_handler logging_session))) = 2
  ∧ NoDup (LogMessage_key
             <$> Session.log_batch
                   (after logging_ops (Session.logCbAsync_handler logging_session)))
  ∧ recentLogs (d (Session.logCbAsync_handler
                     (after logging_ops (Session.logCbAsync_handler logging_session))))
    = ∅
  ∧ Session.log_batch
      (after logging_ops_once (Session.logCbAsync_handler logging_session))
    = Session.log_batch
        (after logging_ops (Session.logCbAsync_handler logging_session)).
Proof.
  assert (H0 : logCb (d logging_session) = Some 9) by (vm_compute; reflexivity).
  assert (H1 : no_delivery LogMessage_key logging_ops
                 (Session.logCbAsync_handler logging_session) = true)
    by (vm_compute; reflexivity).
  assert (H2 : Session.run LogMessage_key logging_ops
                 (Session.logCbAsync_handler logging_session)
               = Some (after logging_ops (Session.logCbAsync_handler logging_session)))
    by (vm_compute; reflexivity).
  assert (H3 : logCb (d (after logging_ops (Session.logCbAsync_handler logging_session)))
               = Some 5) by (vm_compute; reflexivity).
  destruct (log_delivery_deduplicates LogMessage_key logging_session 9 logging_ops
              _ 5 H0 H1 H2 H3) as (_ & Hnodup & _ & _ & Hempty & Honce).
  split; [exact H0|]. split; [exact H1|]. split; [exact H2|]. split; [exact H3|].
  split; [vm_compute; reflexivity|]. split; [exact Hnodup|]. split; [exact Hempty|].
  apply (Honce logging_ops_once _ [] (example_log "bad length" 12) 2
           [example_log "boom" 3]);
    vm_compute; reflexivity.
Defined.

Lemma start_stop_effects_witness :
  Session.run LogMessage_key even_ops
    (Session.Session_new (OptObject example_options) 8 0) = Some even_session
  ∧ (∃ st1, Session.start even_session = Some st1
            ∧ capturing (d st1) = true
            ∧ trace st1 = trace even_session ++ [EvPcapStart; EvAsyncSend StatusSignal]
            ∧ store (d st1) = store (d even_session)
            ∧ queue (d st1) = queue (d even_session)
            ∧ filterThreads (d st1) = filterThreads (d even_session))
  ∧ (∃ st2, Session.stop even_session = Some st2
            ∧ capturing (d st2) = false
            ∧ trace st2 = trace even_session ++ [EvPcapStop; EvAsyncSend StatusSignal]).
Proof.
  assert (H0 : Session.run LogMessage_key even_ops
                 (Session.Session_new (OptObject example_options) 8 0)
               = Some even_session) by (vm_compute; reflexivity).
  destruct (start_stop_effects LogMessage_key _ _ _ _ _ H0)
    as [(st1 & Hs1 & Hc1 & _ & Ht1 & Hst1 & Hq1 & Hf1 & _)
        (st2 & Hs2 & Hc2 & _ & Ht2 & _)].
  split; [exact H0|]. split.
  - exists st1. repeat split; assumption.
  - exists st2. repeat split; assumption.
Defined.

Lemma Session_new_without_object_witness :
  (OptNotObject = OptEmpty ∨ OptNotObject = OptNotObject)
  ∧ dissectorThreads (d (Session.Session_new OptNotObject 8 0)) = []
  ∧ streamDispatcher (d (Session.Session_new OptNotObject 8 0)) = None
  ∧ pcap (d (Session.Session_new OptNotObject 8 0)) = None
  ∧ ns (d (Session.Session_new OptNotObject 8 0)) = ""
  ∧ filterScript (d (Session.Session_new OptNotObject 8 0)) = ""
  ∧ filterThreads (d (Session.Session_new OptNotObject 8 0)) = ∅
  ∧ heap (Session.Session_new OptNotObject 8 0) = ∅
  ∧ trace (Session.Session_new OptNotObject 8 0) = [].
Proof.
  assert (H0 : OptNotObject = OptEmpty ∨ OptNotObject = OptNotObject)
    by (right; reflexivity).
  split; [exact H0|].
  exact (Session_new_without_object OptNotObject 8 0 H0).
Defined.


Lemma destroy_closes_queue_first_witness :
  (∀ i, i < length (dissectorThreads (d even_session)) →
        length (q_items (queue (d even_session)))
        < DissectorPool.turns_of i closing_steps)
  ∧ length (q_items (queue (d even_session))) = 2
  ∧ trace (Session.Private_destroy even_session)
    = trace even_session
      ++ [EvQueueClose; EvDissectorThreadsDestroyed 2;
          EvFilterContextDestroyed 0 2; EvStreamDispatcherDestroyed;
          EvPcapDestroyed; EvUvClose StatusSignal; EvUvClose LogSignal]
  ∧ DissectorPool.pool_workers
      (DissectorPool.schedule closing_steps (pool_after_close even_session))
    = [DissectorPool.Exited; DissectorPool.Exited].
Proof.
  assert (H0 : ∀ i, i < length (dissectorThreads (d even_session)) →
                    length (q_items (queue (d even_session)))
                    < DissectorPool.turns_of i closing_steps).
  { intros [|[|i]] Hi; [vm_compute; lia | vm_compute; lia |].
    exfalso. vm_compute in Hi. lia. }
  destruct (destroy_closes_queue_first even_session closing_steps H0)
    as (_ & _ & _ & _ & Hpool & _).
  split; [exact H0|]. split; [vm_compute; reflexivity|].
  split; [vm_compute; reflexivity|].
  rewrite Hpool. vm_compute. reflexivity.
Defined.

(** * Further properties of the Session *)

(** ** Construction *)

Lemma objects_filter arr :
  JsObject <$> Session.objects arr = List.filter is_object arr.
Proof.
  induction arr as [|v arr IH]; [done|].
  destruct v; simpl; [exact IH | exact IH |].
  rewrite <- IH. reflexivity.
Qed.

Lemma objects_elem_of h arr : h ∈ Session.objects arr ↔ JsObject h ∈ arr.
Proof.
  induction arr as [|v arr IH]; simpl.
  - by rewrite !elem_of_nil.
  - destruct v; rewrite ?elem_of_cons, IH; split; intros H;
      try (by right); try (destruct H as [?|?]; done).
    + destruct H as [->|?]; [by left | by right].
    + destruct H as [[= ->]|?]; [by left | by right].
Qed.

Lemma wrap32_range z : in_int (wrap32 z).
Proof.
  unfold in_int, wrap32, INT_MIN, INT_MAX.
  pose proof (Z.mod_pos_bound (z + 2147483648) 4294967296). lia.
Qed.

(** X1: the dissectors of a Session.  Every dissector thread of a Session
    built from an option object works on the same list of dissectors, the
    stream dispatcher on the list of stream dissectors; each list holds
    exactly the object elements of the configured array, in the array's
    order, the other elements being skipped; an absent array gives an empty
    list. *)
Theorem Session_new_dissectors o hw indet :
  let st := Session.Session_new (OptObject o) hw indet in
  let arr := default [] (opt_dissectors o) in
  let sarr := default [] (opt_stream_dissectors o) in
  (∀ t, t ∈ dissectorThreads (d st) → dt_dissectors t = Session.objects arr)
  ∧ sd_dissectors <$> streamDispatcher (d st) = Some (Session.objects sarr)
  ∧ JsObject <$> Session.objects arr = List.filter is_object arr
  ∧ JsObject <$> Session.objects sarr = List.filter is_object sarr
  ∧ (∀ h, h ∈ Session.objects arr ↔ JsObject h ∈ arr)
  ∧ length (Session.objects arr) ≤ length arr.
Proof.
  intros st arr sarr.
  assert (Hd : ∀ x : option (list JsValue),
             Session.get_option (Session.objects <$> x) [] = Session.objects (default [] x))
    by (by intros [l|]).
  split; [|split; [|split; [|split; [|split]]]].
  - intros t Ht. subst st. unfold Session.Session_new in Ht.
    cbn [d dissectorThreads] in Ht. apply elem_of_replicate in Ht as [-> _].
    cbn [dt_dissectors]. apply Hd.
  - subst st. simpl. f_equal. apply Hd.
  - apply objects_filter.
  - apply objects_filter.
  - intros h. apply objects_elem_of.
  - rewrite <- (length_fmap JsObject), objects_filter. apply filter_length_le.
Qed.

(** X2: the default thread count.  When the option object has no [threads]
    property and [std::thread::hardware_concurrency()] reports a value that
    fits an [int], the Session keeps [max(1, hw - 1)] threads: 1 when the
    report is 0 (unknown), 1 or 2.  It creates that many dissector threads,
    then the stream dispatcher with the same count, then the frame source,
    in this order. *)
Theorem Session_new_default_threads o hw indet :
  opt_threads o = None →
  (0 ≤ hw ≤ INT_MAX)%Z →
  let st := Session.Session_new (OptObject o) hw indet in
  let t := Z.max 1 (hw - 1) in
  threads (d st) = t
  ∧ (hw ≤ 2 → threads (d st) = 1)%Z
  ∧ length (dissectorThreads (d st)) = Z.to_nat t
  ∧ sd_threads <$> streamDispatcher (d st) = Some t
  ∧ trace st = replicate (Z.to_nat t) EvDissectorThreadNew
               ++ [EvStreamDispatcherNew t; EvPcapNew].
Proof.
  intros Hnone Hhw st t. subst st. unfold Session.Session_new, Session.get_option.
  rewrite Hnone. cbn [default d threads dissectorThreads streamDispatcher trace].
  assert (Ht : Z.max 1 (wrap32 (wrap32 hw - 1)) = t).
  { subst t. unfold INT_MAX in Hhw.
    rewrite (wrap32_id hw) by (unfold in_int, INT_MIN, INT_MAX; lia).
    rewrite wrap32_id by (unfold in_int, INT_MIN, INT_MAX; lia). done. }
  rewrite Ht. split; [done|]. split; [subst t; lia|].
  split; [apply length_replicate|]. split; done.
Qed.

(** ** The object handed to the log callback *)

Lemma level_name_inj l1 l2 : Session.level_name l1 = Session.level_name l2 → l1 = l2.
Proof. destruct l1, l2; simpl; intros H; done. Qed.

Lemma if_nonneg_eq a b : Session.if_nonneg a = Session.if_nonneg b ↔ coord_eq a b.
Proof.
  unfold Session.if_nonneg, coord_eq.
  destruct (Z.leb_spec 0 a) as [Ha|Ha], (Z.leb_spec 0 b) as [Hb|Hb];
    split; intros Heq; simplify_eq; try lia; try done.
  destruct Heq as [->|?]; [done | lia].
Qed.

(** X3: what the host can tell from a log object.  Two messages give the
    same object exactly when they have the same level, message, domain,
    resource name and source line and agree on each of the five numeric
    coordinates, where two negative values count as equal: a negative
    coordinate is left out of the object, whatever its value. *)
Theorem log_object_eq m1 m2 :
  Session.log_object m1 = Session.log_object m2 ↔
  level m1 = level m2 ∧ message m1 = message m2 ∧ domain m1 = domain m2
  ∧ resourceName m1 = resourceName m2 ∧ sourceLine m1 = sourceLine m2
  ∧ coord_eq (lineNumber m1) (lineNumber m2)
  ∧ coord_eq (startPosition m1) (startPosition m2)
  ∧ coord_eq (endPosition m1) (endPosition m2)
  ∧ coord_eq (startColumn m1) (startColumn m2)
  ∧ coord_eq (endColumn m1) (endColumn m2).
Proof.
  unfold Session.log_object. split.
  - intros H. injection H as Hl Hm Hd Hr Hs H1 H2 H3 H4 H5.
    apply level_name_inj in Hl. rewrite <- !if_nonneg_eq. done.
  - intros (Hl & Hm & Hd & Hr & Hs & H1 & H2 & H3 & H4 & H5).
    apply if_nonneg_eq in H1, H2, H3, H4, H5. congruence.
Qed.

(** ** The device list *)

Lemma devices_rounds devs k :
  k ≤ length devs →
  foldl (devices_round devs) (Array_new (length devs)) (seq 0 k)
  = (Some ∘ device_object <$> take k devs) ++ replicate (length devs - k) None.
Proof.
  induction k as [|k IH]; intros Hk.
  - simpl. by rewrite Nat.sub_0_r.
  - rewrite seq_S, foldl_app, IH by lia. simpl.
    destruct (lookup_lt_is_Some_2 devs k) as [dev Hdev]; [lia|].
    unfold devices_round. rewrite Hdev.
    rewrite (take_S_r _ _ _ Hdev), fmap_app. simpl.
    unfold Array_set.
    assert (Hlen : length (Some ∘ device_object <$> take k devs) = k)
      by (rewrite length_fmap, length_take; lia).
    rewrite decide_True
      by (rewrite length_app, Hlen, length_replicate; lia).
    replace (length devs - k) with (S (length devs - S k)) by lia.
    rewrite <- app_assoc. simpl.
    rewrite insert_app_r_alt by lia. rewrite Hlen, Nat.sub_diag. done.
Qed.

(** X4: the device array.  [Session::devices] returns an array with one
    object per device of [Pcap::devices()], in the same order and without a
    hole; the object of a device carries its five members unchanged, so
    different devices give different objects. *)
Theorem Session_devices_all devs :
  Session_devices devs = Some ∘ device_object <$> devs
  ∧ length (Session_devices devs) = length devs
  ∧ (∀ i dev, devs !! i = Some dev →
       Session_devices devs !! i = Some (Some (device_object dev)))
  ∧ (∀ dev1 dev2, device_object dev1 = device_object dev2 → dev1 = dev2).
Proof.
  assert (Hall : Session_devices devs = Some ∘ device_object <$> devs).
  { unfold Session_devices. rewrite devices_rounds by done.
    rewrite firstn_all, Nat.sub_diag. simpl. apply app_nil_r. }
  split; [done|]. rewrite Hall. split; [apply length_fmap|]. split.
  - intros i dev Hi. by rewrite list_lookup_fmap, Hi.
  - intros [] []. unfold device_object. simpl. by intros [= -> -> -> -> ->].
Qed.

(** ** What a Session keeps for its whole life *)

Section Lifetime.
Variable key : LogMessage → string.

Lemma run_snoc ops op st st' :
  Session.run key (ops ++ [op]) st = Some st' ↔
  ∃ st1, Session.run key ops st = Some st1 ∧ Session.step key op st1 = Some st'.
Proof.
  rewrite run_app. destruct (Session.run key ops st) as [st1|]; simpl.
  - destruct (Session.step key op st1) as [st2|] eqn:Hstep; simpl; split.
    + intros [= <-]. by exists st1.
    + intros (? & [= <-] & H). by rewrite Hstep in H.
    + done.
    + intros (? & [= <-] & H). by rewrite Hstep in H.
  - split; [done | by intros (? & ? & ?)].
Qed.

(** A property kept by every step holds in every reachable state. *)
Lemma run_invariant (P : State → Prop) ops : ∀ st st',
  (∀ op s s', Session.step key op s = Some s' → P s → P s') →
  Session.run key ops st = Some st' → P st → P st'.
Proof.
  induction ops as [|op ops IH]; intros st st' Hstep Hrun HP; simpl in Hrun.
  - by simplify_eq.
  - destruct (Session.step key op st) as [st1|] eqn:Hop; simplify_eq/=.
    eapply IH; [done | done |]. by eapply Hstep.
Qed.

Lemma size_delete_S {A} (m : gmap string A) i x :
  m !! i = Some x → size m = S (size (delete i m)).
Proof.
  intros Hi. rewrite <- (insert_id m i x Hi) at 1.
  rewrite <- insert_delete_eq. apply map_size_insert_None, lookup_delete_eq.
Qed.

Lemma size_delete_S_addr {A} (m : gmap addr A) i x :
  m !! i = Some x → size m = S (size (delete i m)).
Proof.
  intros Hi. rewrite <- (insert_id m i x Hi) at 1.
  rewrite <- insert_delete_eq. apply map_size_insert_None, lookup_delete_eq.
Qed.

(** *** The configuration and the shape of groups and contexts *)

Lemma configured_same ns0 script0 t0 st st' :
  ns (d st') = ns (d st) →
  filterScript (d st') = filterScript (d st) →
  threads (d st') = threads (d st) →
  filterThreads (d st') = filterThreads (d st) →
  heap st' = heap st →
  configured ns0 script0 t0 st → configured ns0 script0 t0 st'.
Proof.
  intros Hn Hs Ht Hf Hh [H1 H2 H3 H4 H5 H6].
  split; rewrite ?Hn, ?Hs, ?Ht, ?Hf, ?Hh; done.
Qed.

Lemma configured_erase ns0 script0 t0 name st :
  configured ns0 script0 t0 st → configured ns0 script0 t0 (Session.erase name st).
Proof.
  intros [H1 H2 H3 H4 H5 H6]. unfold Session.erase.
  destruct (filterThreads (d st) !! name) as [fc|] eqn:Hfc; [|by split].
  split; simpl; try done.
  - intros name' fc' [_ Hfc']%lookup_delete_Some. by eapply H4.
  - intros a c [_ Hc]%lookup_delete_Some. by eapply H5.
  - intros a c [Hne Hc]%lookup_delete_Some.
    destruct (H6 a c Hc) as (name' & fc' & Hfc' & Ha).
    exists name', fc'. split; [|done]. apply lookup_delete_Some. split; [|done].
    intros <-. by simplify_eq.
Qed.

Lemma configured_install ns0 script0 t0 name expr st :
  expr ≠ "" →
  filterThreads (d st) !! name = None →
  configured ns0 script0 t0 st → configured ns0 script0 t0 (Session.install name expr st).
Proof.
  intros Hexpr Hnone [H1 H2 H3 H4 H5 H6]. split; simpl; try done.
  - intros name' fc' [[<- <-]|[_ Hfc']]%lookup_insert_Some; simpl.
    + by rewrite H3.
    + by eapply H4.
  - intros a c [[<- <-]|[_ Hc]]%lookup_insert_Some; simpl; [done|]. by eapply H5.
  - intros a c [[<- <-]|[_ Hc]]%lookup_insert_Some.
    + eexists name, _. split; [apply lookup_insert_eq | done].
    + destruct (H6 a c Hc) as (name' & fc' & Hfc' & Ha).
      exists name', fc'. split; [|done]. rewrite lookup_insert_ne; [done|].
      intros <-. congruence.
Qed.

Lemma configured_filter ns0 script0 t0 name expr st :
  configured ns0 script0 t0 st → configured ns0 script0 t0 (Session.filter name expr st).
Proof.
  intros Hcfg. unfold Session.filter. case_bool_decide as Hexpr.
  - eapply (configured_same _ _ _ (Session.erase name st)); [reflexivity..|].
    by apply configured_erase.
  - eapply (configured_same _ _ _ (Session.install name expr (Session.erase name st)));
      [reflexivity..|].
    apply configured_install; [done | apply erase_lookup | by apply configured_erase].
Qed.

Lemma configured_step ns0 script0 t0 op st st' :
  Session.step key op st = Some st' →
  configured ns0 script0 t0 st → configured ns0 script0 t0 st'.
Proof.
  intros Hstep Hcfg. destruct op; simpl in Hstep; invert_step Hstep;
    try (by apply configured_filter);
    try (by eapply configured_same; [..|exact Hcfg]).
  - (* a filter thread inserts *)
    destruct Hcfg as [H1 H2 H3 H4 H5 H6]. split; simpl; try done.
    + intros a' c' [[<- <-]|[_ Hc']]%lookup_insert_Some; simpl; by eapply H5.
    + intros a' c' [[<- <-]|[_ Hc']]%lookup_insert_Some; by eapply H6.
  - (* the log handler *)
    unfold Session.logCbAsync_handler. destruct (logCb (d st)); [|done].
    by eapply configured_same; [..|exact Hcfg].
Qed.

Lemma configured_new option hw indet :
  let st := Session.Session_new option hw indet in
  configured (ns (d st)) (filterScript (d st)) (threads (d st)) st.
Proof. destruct option; split; simpl; try done. Qed.

Lemma configured_reachable option hw indet ops st :
  Session.run key ops (Session.Session_new option hw indet) = Some st →
  let st0 := Session.Session_new option hw indet in
  configured (ns (d st0)) (filterScript (d st0)) (threads (d st0)) st.
Proof.
  intros Hrun st0.
  eapply (run_invariant (configured _ _ _)); [|exact Hrun|apply configured_new].
  intros op s s'. apply configured_step.
Qed.

Lemma step_fixed op st st' :
  Session.step key op st = Some st' →
  dissectorThreads (d st') = dissectorThreads (d st)
  ∧ streamDispatcher (d st') = streamDispatcher (d st).
Proof.
  intros Hstep. destruct op; simpl in Hstep; invert_step Hstep; try done.
  - unfold Session.filter, Session.erase.
    destruct (filterThreads (d st) !! name); by case_bool_decide.
  - unfold Session.logCbAsync_handler. by destruct (logCb (d st)).
Qed.

(** X5: the configuration is fixed at construction.  No call of the host,
    no step of a worker and no handler changes the namespace, the filter
    script, the thread count, the dissector threads or the stream
    dispatcher; hence the layer [Session::analyze] adds always carries the
    namespace the Session was given ("" when it was given none), and the
    context [Session::filter] creates the filter script it was given. *)
Theorem configuration_is_fixed option hw indet ops st :
  Session.run key ops (Session.Session_new option hw indet) = Some st →
  let st0 := Session.Session_new option hw indet in
  Session_ns st = Session_ns st0
  ∧ filterScript (d st) = filterScript (d st0)
  ∧ threads (d st) = threads (d st0)
  ∧ dissectorThreads (d st) = dissectorThreads (d st0)
  ∧ streamDispatcher (d st) = streamDispatcher (d st0)
  ∧ (∀ pkt, layer_ns (Session.raw_layer st pkt)
            = match option with
              | OptObject o => default "" (opt_namespace o)
              | _ => ""
              end)
  ∧ (∀ a c, heap st !! a = Some c →
            ctx_script c = match option with
                           | OptObject o => default "" (opt_filterScript o)
                           | _ => ""
                           end).
Proof.
  intros Hrun st0.
  destruct (configured_reachable _ _ _ _ _ Hrun) as [H1 H2 H3 _ H5 _].
  assert (Hfix : dissectorThreads (d st) = dissectorThreads (d st0)
                 ∧ streamDispatcher (d st) = streamDispatcher (d st0)).
  { eapply (run_invariant (λ s, dissectorThreads (d s) = dissectorThreads (d st0)
                                ∧ streamDispatcher (d s) = streamDispatcher (d st0)));
      [|exact Hrun|done].
    intros op s s' Hstep [Ha Hb]. destruct (step_fixed _ _ _ Hstep) as [-> ->]. done. }
  destruct Hfix as [Hd Hs]. unfold Session_ns.
  split; [done|]. split; [done|]. split; [done|]. split; [done|]. split; [done|].
  split.
  - intros pkt. unfold Session.raw_layer. simpl. rewrite H1.
    subst st0. by destruct option.
  - intros a c Hc. destruct (H5 a c Hc) as [-> _]. subst st0. by destruct option.
Qed.

(** X6: the shape of a filter group.  In every reachable state each
    installed group has exactly as many filter threads as the Session's
    thread count, all of them holding the group's own context; that context
    is live, carries the Session's filter script and a non-empty
    expression.  In a Session built from an option object the group has at
    least one thread. *)
Theorem filter_group_shape option hw indet ops st name fc :
  Session.run key ops (Session.Session_new option hw indet) = Some st →
  filterThreads (d st) !! name = Some fc →
  fc_threads fc = replicate (Z.to_nat (threads (d st))) {| ft_ctx := fc_ctx fc |}
  ∧ (∃ c, heap st !! fc_ctx fc = Some c
          ∧ ctx_script c = filterScript (d st) ∧ ctx_filter c ≠ "")
  ∧ (∀ o, option = OptObject o → 1 ≤ length (fc_threads fc)).
Proof.
  intros Hrun Hfc.
  pose proof (inv_reachable key _ _ _ _ _ Hrun) as Hinv.
  destruct (configured_reachable _ _ _ _ _ Hrun) as [H1 H2 H3 H4 H5 _].
  split; [rewrite H3; by eapply H4|]. split.
  - destruct (inv_live _ Hinv _ _ Hfc) as [c Hc]. exists c.
    destruct (H5 _ _ Hc) as [Hs Hf]. rewrite H2. done.
  - intros o ->. rewrite (H4 _ _ Hfc), length_replicate. simpl. lia.
Qed.

(** *** No context without a group *)

Lemma sizes_step op st st' :
  Session.step key op st = Some st' → inv st →
  size (heap st) = size (filterThreads (d st)) →
  size (heap st') = size (filterThreads (d st')).
Proof.
  intros Hstep Hinv Hsz. destruct op; simpl in Hstep; invert_step Hstep; try done.
  - (* filter *)
    assert (He : size (heap (Session.erase name st))
                 = size (filterThreads (d (Session.erase name st)))).
    { unfold Session.erase.
      destruct (filterThreads (d st) !! name) as [fc|] eqn:Hfc; [|done]. simpl.
      destruct (inv_live _ Hinv _ _ Hfc) as [c Hc].
      rewrite (size_delete_S _ _ _ Hfc), (size_delete_S_addr _ _ _ Hc) in Hsz. lia. }
    pose proof (inv_erase name st Hinv) as Hinv'.
    unfold Session.filter. simpl. case_bool_decide; simpl; [done|].
    rewrite !map_size_insert_None, He; [done | apply erase_lookup |].
    destruct (heap (Session.erase name st) !! next (Session.erase name st)) eqn:Hn;
      [|done].
    assert (next (Session.erase name st) < next (Session.erase name st))
      by (apply (inv_next _ Hinv'); by eexists). lia.
  - (* a filter thread inserts *)
    simpl. rewrite map_size_insert_Some; [done | by eexists].
  - unfold Session.logCbAsync_handler. by destruct (logCb (d st)).
Qed.

(** X7: no context without a group.  In every reachable state the live
    filter contexts are exactly the contexts of the installed groups, one
    per group: a context is freed when its group is erased or replaced and
    none is left behind. *)
Theorem contexts_belong_to_groups option hw indet ops st :
  Session.run key ops (Session.Session_new option hw indet) = Some st →
  (∀ a, is_Some (heap st !! a) ↔
        ∃ name fc, filterThreads (d st) !! name = Some fc ∧ fc_ctx fc = a)
  ∧ (∀ n1 n2 fc1 fc2, filterThreads (d st) !! n1 = Some fc1 →
       filterThreads (d st) !! n2 = Some fc2 → fc_ctx fc1 = fc_ctx fc2 → n1 = n2)
  ∧ size (heap st) = size (filterThreads (d st)).
Proof.
  intros Hrun.
  pose proof (inv_reachable key _ _ _ _ _ Hrun) as Hinv.
  destruct (configured_reachable _ _ _ _ _ Hrun) as [_ _ _ _ _ H6].
  split; [|split].
  - intros a. split.
    + intros [c Hc]. by eapply H6.
    + intros (name & fc & Hfc & <-). by eapply (inv_live _ Hinv).
  - apply (inv_inj _ Hinv).
  - eapply (run_invariant (λ s, inv s ∧ size (heap s) = size (filterThreads (d s))));
      [|exact Hrun|].
    + intros op s s' Hstep [Hi Hs]. split; [by eapply inv_step | by eapply sizes_step].
    + split; [apply inv_Session_new | by destruct option].
Qed.

(** X8: no read through a dead pointer.  In every reachable state
    [Session::getFiltered] returns a list for every name and range, and the
    status handler completes: neither dereferences a context that has been
    destroyed. *)
Theorem reads_are_safe option hw indet ops st :
  Session.run key ops (Session.Session_new option hw indet) = Some st →
  (∀ name start end_, is_Some (Session.getFiltered name start end_ st))
  ∧ is_Some (Session.filtered_sizes st)
  ∧ is_Some (Session.statusCbAsync_handler st).
Proof.
  intros Hrun. pose proof (inv_reachable key _ _ _ _ _ Hrun) as Hinv.
  assert (Hf : is_Some (Session.filtered_sizes st)).
  { unfold Session.filtered_sizes. rewrite bool_decide_eq_true_2; [by eexists|].
    intros name fc Hfc. by eapply (inv_live _ Hinv). }
  split; [|split; [done|]].
  - intros name start end_. unfold Session.getFiltered.
    destruct (filterThreads (d st) !! name) as [fc|] eqn:Hfc; [|by eexists].
    destruct (inv_live _ Hinv _ _ Hfc) as [c ->]. by eexists.
  - unfold Session.statusCbAsync_handler. destruct Hf as [m ->].
    destruct (statusCb (d st)); by eexists.
Qed.

End Lifetime.

(** ** Installing and removing groups *)

Section MoreFilters.
Variable key : LogMessage → string.

Lemma erase_heap_other name name' fc' st :
  inv st → name' ≠ name →
  filterThreads (d st) !! name' = Some fc' →
  heap (Session.erase name st) !! fc_ctx fc' = heap st !! fc_ctx fc'
  ∧ next (Session.erase name st) = next st.
Proof.
  intros Hinv Hne Hfc'. unfold Session.erase.
  destruct (filterThreads (d st) !! name) as [fc|] eqn:Hfc; simpl; [|done].
  split; [|done]. rewrite lookup_delete_ne; [done|].
  intros Heq. apply Hne. symmetry. by eapply (inv_inj _ Hinv).
Qed.

Lemma filter_heap_other name name' expr fc' st :
  inv st → name' ≠ name →
  filterThreads (d st) !! name' = Some fc' →
  heap (Session.filter name expr st) !! fc_ctx fc' = heap st !! fc_ctx fc'.
Proof.
  intros Hinv Hne Hfc'.
  destruct (erase_heap_other name name' fc' st Hinv Hne Hfc') as [He Hn].
  unfold Session.filter. simpl. case_bool_decide; simpl; [done|].
  rewrite lookup_insert_ne; [done|]. rewrite Hn.
  destruct (inv_live _ Hinv _ _ Hfc') as [c Hc].
  assert (fc_ctx fc' < next st) by (apply (inv_next _ Hinv); by eexists). lia.
Qed.

(** X9: a call of [Session::filter] concerns one name only.  In a
    reachable state, installing, replacing or removing the group under one
    name leaves every group under another name as it is, with its context
    and its result set: [getFiltered] under the other name returns what it
    returned before, for every range. *)
Theorem filter_keeps_other_groups option hw indet ops st name expr name' :
  Session.run key ops (Session.Session_new option hw indet) = Some st →
  name' ≠ name →
  let st' := Session.filter name expr st in
  filterThreads (d st') !! name' = filterThreads (d st) !! name'
  ∧ (∀ fc', filterThreads (d st) !! name' = Some fc' →
       heap st' !! fc_ctx fc' = heap st !! fc_ctx fc')
  ∧ (∀ start end_, Session.getFiltered name' start end_ st'
                   = Session.getFiltered name' start end_ st).
Proof.
  intros Hrun Hne st'. pose proof (inv_reachable key _ _ _ _ _ Hrun) as Hinv.
  assert (Hft : filterThreads (d st') !! name' = filterThreads (d st) !! name')
    by (by apply filter_lookup_ne).
  split; [done|]. split.
  - intros fc' Hfc'. by eapply filter_heap_other.
  - intros start end_. unfold Session.getFiltered. rewrite Hft.
    destruct (filterThreads (d st) !! name') as [fc'|] eqn:Hfc'; [|done].
    subst st'. by rewrite (filter_heap_other name name' expr fc' st Hinv Hne Hfc').
Qed.

(** X10: the names with a group.  After [Session::filter name expr] the
    names under which a group is installed are the former ones without
    [name] when [expr] is empty, and the former ones together with [name]
    otherwise; a context is allocated in the second case only, and in both
    cases the last thing the call does is to raise the status signal. *)
Theorem filter_names name expr st :
  let st' := Session.filter name expr st in
  dom (filterThreads (d st'))
  = (if bool_decide (expr = "") then dom (filterThreads (d st)) ∖ {[name]}
     else {[name]} ∪ dom (filterThreads (d st)))
  ∧ last (trace st') = Some (EvAsyncSend StatusSignal)
  ∧ next st' = if bool_decide (expr = "") then next st else S (next st).
Proof.
  intros st'.
  assert (He : dom (filterThreads (d (Session.erase name st)))
               = dom (filterThreads (d st)) ∖ {[name]}).
  { unfold Session.erase.
    destruct (filterThreads (d st) !! name) as [fc|] eqn:Hfc; simpl.
    - apply dom_delete_L.
    - apply not_elem_of_dom in Hfc. apply set_eq. intros x.
      rewrite elem_of_difference, elem_of_singleton. split; [|tauto].
      intros Hx. split; [done|]. by intros ->. }
  assert (Hn : next (Session.erase name st) = next st).
  { unfold Session.erase. by destruct (filterThreads (d st) !! name). }
  subst st'. unfold Session.filter. split; [|split].
  - case_bool_decide; simpl; [done|]. rewrite dom_insert_L, He.
    apply set_eq. intros x. rewrite !elem_of_union, elem_of_difference, elem_of_singleton.
    destruct (decide (x = name)); tauto.
  - simpl. apply last_snoc.
  - case_bool_decide; simpl; by rewrite ?Hn.
Qed.

End MoreFilters.

(** ** What the host is told *)

Section Notifications.
Variable key : LogMessage → string.

Lemma filter_events name expr st :
  ∃ evs, trace (Session.filter name expr st) = trace st ++ evs
         ∧ EvAsyncSend StatusSignal ∈ evs
         ∧ (∀ cb obj, EvLogCall cb obj ∉ evs)
         ∧ (∀ cb obj, EvStatusCall cb obj ∉ evs).
Proof.
  destruct (filter_trace name expr st) as (evs & Hevs & Hno).
  exists evs. split; [done|].
  assert (Hlast : ∃ evs0, evs = evs0 ++ [EvAsyncSend StatusSignal]
                          ∧ ∀ cb obj, EvLogCall cb obj ∉ evs0).
  { revert Hevs. unfold Session.filter, Session.erase, Session.install.
    destruct (filterThreads (d st) !! name) as [fc|]; case_bool_decide; simpl;
      rewrite <- ?app_assoc; intros Heq%app_inv_head; subst evs;
      [eexists [_] | eexists (_ :: _ :: replicate _ _)
      | exists [] | eexists (_ :: replicate _ _)];
      (split; [simpl; rewrite <- ?app_assoc; reflexivity|]);
      intros cb obj Hin;
      repeat (apply elem_of_cons in Hin as [Hin|Hin]; [discriminate|]);
      try (apply elem_of_replicate in Hin as [Hin _]; discriminate);
      by apply elem_of_nil in Hin. }
  destruct Hlast as (evs0 & -> & Hlog). split; [|split; [|done]].
  - apply elem_of_app. right. by apply list_elem_of_singleton.
  - intros cb obj [Hin|Hin]%elem_of_app; [by apply Hlog in Hin|].
    by apply list_elem_of_singleton in Hin.
Qed.

(** X11: no change of status goes unsignalled.  Whenever a step of a
    Session changes what the status callback would be told (the capturing
    flag, the number of stored packets, the installed groups or the size of
    a result set), that step raises the status signal. *)
Theorem status_change_is_signalled op st st' :
  Session.step key op st = Some st' →
  status_view st' ≠ status_view st →
  ∃ evs, trace st' = trace st ++ evs ∧ EvAsyncSend StatusSignal ∈ evs.
Proof.
  intros Hstep Hne.
  destruct op; simpl in Hstep; invert_step Hstep;
    try (by exfalso; apply Hne);
    try (eexists; split; [reflexivity|];
         repeat first [by apply list_elem_of_here | apply list_elem_of_further]).
  - destruct (filter_events name expr st) as (evs & Hevs & Hin & _). by exists evs.
  - exfalso. apply Hne. unfold Session.logCbAsync_handler.
    by destruct (logCb (d st)).
Qed.

(** The capturing flag and the store after a run. *)
Lemma step_capturing op st st' :
  Session.step key op st = Some st' →
  capturing (d st') = capture_after [op] (capturing (d st))
  ∧ store (d st') = foldl (λ s pkt, PacketStoreOps.insert pkt s) (store (d st)) (stored_of [op]).
Proof.
  intros Hstep. destruct op; simpl in Hstep; invert_step Hstep; try done.
  - unfold Session.filter, Session.erase.
    destruct (filterThreads (d st) !! name); by case_bool_decide.
  - unfold Session.logCbAsync_handler. by destruct (logCb (d st)).
Qed.

Lemma run_capturing ops : ∀ st st',
  Session.run key ops st = Some st' →
  capturing (d st') = capture_after ops (capturing (d st))
  ∧ store (d st') = foldl (λ s pkt, PacketStoreOps.insert pkt s) (store (d st)) (stored_of ops).
Proof.
  induction ops as [|op ops IH]; intros st st' Hrun; simpl in Hrun.
  - by simplify_eq.
  - destruct (Session.step key op st) as [st1|] eqn:Hstep; simplify_eq/=.
    destruct (step_capturing _ _ _ Hstep) as [Hc Hs].
    destruct (IH _ _ Hrun) as [-> ->]. rewrite Hc, Hs.
    split; [reflexivity | by destruct op].
Qed.

(** X12: the capturing flag.  A Session starts with [capturing] false, and
    in every reachable state the flag is what the last call of [start] or
    [stop] set: nothing else writes it.  In particular calling [start]
    twice, or [stop] without a [start], leaves the flag as one call does. *)
Theorem capturing_follows_start_stop option hw indet ops st :
  Session.run key ops (Session.Session_new option hw indet) = Some st →
  capturing (d st) = capture_after ops false
  ∧ (Forall (λ op, op ≠ Session.OpStart ∧ op ≠ Session.OpStop) ops →
     capturing (d st) = false)
  ∧ (∀ st1, Session.start st = Some st1 →
       capturing (d st1) = true
       ∧ ∀ st2, Session.start st1 = Some st2 → capturing (d st2) = true)
  ∧ (∀ st1, Session.stop st = Some st1 → capturing (d st1) = false).
Proof.
  intros Hrun. destruct (run_capturing _ _ _ Hrun) as [Hc _].
  assert (H0 : capturing (d (Session.Session_new option hw indet)) = false)
    by (by destruct option).
  rewrite H0 in Hc. split; [done|]. split; [|split].
  - rewrite Hc. clear. induction 1 as [|op ops [H1 H2] _ IH] using Forall_ind; [done|].
    unfold capture_after in *. simpl. by destruct op.
  - intros st1 Hs. invert_step Hs. split; [done|].
    intros st2 Hs2. by invert_step Hs2.
  - intros st1 Hs. by invert_step Hs.
Qed.

(** X13: the store has one writer.  After any run the packet store holds
    what it held before plus the packets the dissector threads handed to
    [packetCb], inserted in the order of the calls; no other call or step
    touches it, so [Session::get] answers the same for every sequence
    number across a run without such a call. *)
Theorem store_written_by_packetCb ops st st' :
  Session.run key ops st = Some st' →
  store (d st')
  = foldl (λ s pkt, PacketStoreOps.insert pkt s) (store (d st)) (stored_of ops)
  ∧ (stored_of ops = [] → ∀ seq, Session.get seq st' = Session.get seq st).
Proof.
  intros Hrun. destruct (run_capturing _ _ _ Hrun) as [_ Hs].
  split; [done|]. intros Hnone seq. unfold Session.get.
  by rewrite Hs, Hnone.
Qed.

End Notifications.

(** ** Where callbacks and messages come from *)

Section Provenance.
Variable key : LogMessage → string.

Lemma provenance_mono (L S L' S' : Handle → Prop) (M M' : LogMessage → Prop) st :
  (∀ cb, L cb → L' cb) → (∀ cb, S cb → S' cb) → (∀ msg, M msg → M' msg) →
  provenance L S M st → provenance L' S' M' st.
Proof.
  intros HL HS HM [H1 H2 H3 H4 H5]. split.
  - intros cb Hcb. by apply HL, H1.
  - intros cb Hcb. by apply HS, H2.
  - intros k msg Hmsg. by eapply HM, H3.
  - intros cb obj Hin. destruct (H4 _ _ Hin) as (Hcb & msg & Hmsg & ->).
    split; [by apply HL|]. exists msg. split; [by apply HM | done].
  - intros cb obj Hin. by eapply HS, H5.
Qed.

(** A step that adds no call to the trace and leaves the callbacks and the
    pending messages alone keeps the provenance. *)
Lemma provenance_same L S M st st' evs :
  trace st' = trace st ++ evs →
  (∀ cb obj, EvLogCall cb obj ∉ evs) →
  (∀ cb obj, EvStatusCall cb obj ∉ evs) →
  logCb (d st') = logCb (d st) →
  statusCb (d st') = statusCb (d st) →
  recentLogs (d st') = recentLogs (d st) →
  provenance L S M st → provenance L S M st'.
Proof.
  intros Htr Hl Hs Hlc Hsc Hr [H1 H2 H3 H4 H5].
  split; rewrite ?Hlc, ?Hsc, ?Hr, ?Htr; try done.
  - intros cb obj [Hin|Hin]%elem_of_app; [by apply H4 | by apply Hl in Hin].
  - intros cb obj [Hin|Hin]%elem_of_app; [by eapply H5 | by apply Hs in Hin].
Qed.

Lemma provenance_step (L S : Handle → Prop) (M : LogMessage → Prop) op st st' :
  Session.step key op st = Some st' →
  provenance L S M st →
  provenance (λ cb, L cb ∨ op = Session.OpSetLogCallback (Some cb))
             (λ cb, S cb ∨ op = Session.OpSetStatusCallback (Some cb))
             (λ msg, M msg ∨ op = Session.OpLog msg) st'.
Proof.
  intros Hstep Hp.
  assert (Hp' : provenance (λ cb, L cb ∨ op = Session.OpSetLogCallback (Some cb))
                  (λ cb, S cb ∨ op = Session.OpSetStatusCallback (Some cb))
                  (λ msg, M msg ∨ op = Session.OpLog msg) st)
    by (eapply provenance_mono; [..|exact Hp]; intros; by left).
  assert (Hnone : ∀ cbx obj, EvLogCall cbx obj ∉ @nil Event)
    by (intros ?? Hin; by apply elem_of_nil in Hin).
  assert (Hnone' : ∀ cbx obj, EvStatusCall cbx obj ∉ @nil Event)
    by (intros ?? Hin; by apply elem_of_nil in Hin).
  destruct op; simpl in Hstep; invert_step Hstep;
    try (by eapply (provenance_same _ _ _ st _ []);
            [simpl; by rewrite app_nil_r|done..|exact Hp']);
    try (by eapply (provenance_same _ _ _ st);
            [reflexivity
            |intros cbx obj Hin; no_status_call Hin
            |intros cbx obj Hin; no_status_call Hin
            |reflexivity..|exact Hp']).
  - (* filter *)
    destruct (filter_events name expr st) as (evs & Hevs & _ & Hl & Hs).
    eapply provenance_same; [exact Hevs | exact Hl | exact Hs |..| exact Hp'];
      unfold Session.filter, Session.erase;
      destruct (filterThreads (d st) !! name); by case_bool_decide.
  - (* setLogCallback *)
    destruct Hp' as [H1 H2 H3 H4 H5]. split; simpl; try done.
    intros cb' ->. by right.
  - (* setStatusCallback *)
    destruct Hp' as [H1 H2 H3 H4 H5]. split; simpl; try done.
    intros cb' ->. by right.
  - (* log *)
    destruct Hp' as [H1 H2 H3 H4 H5]. split; simpl; try done.
    + intros k m [[<- <-]|[_ Hm]]%lookup_insert_Some; [by right | by eapply H3].
    + intros cb obj [Hin|Hin]%elem_of_app; [by apply H4 | no_status_call Hin].
    + intros cb obj [Hin|Hin]%elem_of_app; [by eapply H5 | no_status_call Hin].
  - (* the status handler, with a callback *)
    destruct Hp' as [H1 H2 H3 H4 H5]. split; simpl; try done.
    + intros cb obj [Hin|Hin]%elem_of_app; [by apply H4 | no_status_call Hin].
    + intros cb obj [Hin|Hin]%elem_of_app; [by eapply H5|].
      apply list_elem_of_singleton in Hin. simplify_eq. by apply H2.
  - (* the status handler, without one *)
    exact Hp'.
  - (* the log handler *)
    unfold Session.logCbAsync_handler.
    destruct (logCb (d st)) as [cb|] eqn:Hcb; [|exact Hp'].
    destruct Hp' as [H1 H2 H3 H4 H5]. split; simpl; try done.
    + intros cb' obj [Hin|Hin]%elem_of_app; [by apply H4|].
      apply list_elem_of_fmap in Hin as (msg & [= -> ->] & Hmsg).
      split; [by apply H1|]. exists msg. split; [|done].
      unfold Session.log_batch in Hmsg.
      apply list_elem_of_fmap in Hmsg as ([k m] & -> & Hkm).
      apply elem_of_map_to_list in Hkm. by eapply H3.
    + intros cb' obj [Hin|Hin]%elem_of_app; [by eapply H5|].
      apply list_elem_of_fmap in Hin as (msg & Heq & _). discriminate.
Qed.

Lemma provenance_new option hw indet :
  provenance (λ _, False) (λ _, False) (λ _, False)
    (Session.Session_new option hw indet).
Proof.
  assert (Hobj : ∀ n t e, e ∈ replicate n EvDissectorThreadNew
                            ++ [EvStreamDispatcherNew t; EvPcapNew] →
                 (∀ cb obj, e ≠ EvLogCall cb obj) ∧ (∀ cb obj, e ≠ EvStatusCall cb obj)).
  { intros n t e [[-> _]%elem_of_replicate|Hin]%elem_of_app; [done|].
    apply elem_of_cons in Hin as [->|Hin]; [done|].
    apply list_elem_of_singleton in Hin as ->. done. }
  destruct option; split; simpl; try done;
    try (intros k msg Hk; by rewrite lookup_empty in Hk);
    try (intros cb obj Hin; by apply elem_of_nil in Hin).
  - intros cb obj Hin. by destruct (proj1 (Hobj _ _ _ Hin) cb obj).
  - intros cb obj Hin. by destruct (proj2 (Hobj _ _ _ Hin) cb obj).
Qed.

Lemma provenance_reachable option hw indet ops : ∀ st,
  Session.run key ops (Session.Session_new option hw indet) = Some st →
  provenance (λ cb, Session.OpSetLogCallback (Some cb) ∈ ops)
             (λ cb, Session.OpSetStatusCallback (Some cb) ∈ ops)
             (λ msg, Session.OpLog msg ∈ ops) st.
Proof.
  induction ops as [|op ops IH] using rev_ind; intros st Hrun.
  - simpl in Hrun. simplify_eq.
    eapply provenance_mono; [..|apply provenance_new]; done.
  - apply run_snoc in Hrun as (st1 & Hrun & Hstep).
    eapply provenance_mono; [..|exact (provenance_step _ _ _ _ _ _ Hstep (IH _ Hrun))];
      simpl; intros x [Hx| ->]; apply elem_of_app;
      (by left) || (right; by apply list_elem_of_singleton).
Qed.

(** X14: the host is only called back as it asked.  In every reachable
    state, each call of the log callback recorded in the trace passed a
    handle the host had installed with [setLogCallback] and an object built
    from a message that had been emitted through [Private::log]; each call
    of the status callback passed a handle installed with
    [setStatusCallback]; and the two getters return either an empty handle
    or an installed one.  A Session on which no callback was installed
    never calls the host. *)
Theorem callbacks_as_installed option hw indet ops st :
  Session.run key ops (Session.Session_new option hw indet) = Some st →
  (∀ cb obj, EvLogCall cb obj ∈ trace st →
     Session.OpSetLogCallback (Some cb) ∈ ops
     ∧ ∃ msg, Session.OpLog msg ∈ ops ∧ obj = Session.log_object msg)
  ∧ (∀ cb obj, EvStatusCall cb obj ∈ trace st →
       Session.OpSetStatusCallback (Some cb) ∈ ops)
  ∧ (∀ cb, Session_logCallback st = Some cb → Session.OpSetLogCallback (Some cb) ∈ ops)
  ∧ (∀ cb, Session_statusCallback st = Some cb →
       Session.OpSetStatusCallback (Some cb) ∈ ops).
Proof.
  intros Hrun. destruct (provenance_reachable _ _ _ _ _ Hrun) as [H1 H2 _ H4 H5].
  split; [exact H4|]. split; [exact H5|]. split; [exact H1 | exact H2].
Qed.

(** X15: messages wait for a callback.  While no log callback is installed
    the log handler leaves [recentLogs] alone; so from the construction of
    the Session up to the first delivery nothing is dropped: the first run
    of the handler with a callback installed passes one object per key,
    built from the latest message logged under that key since the Session
    was constructed, and every logged key is among them. *)
Theorem first_log_delivery option hw indet ops st cb :
  Session.run key ops (Session.Session_new option hw indet) = Some st →
  no_delivery key ops (Session.Session_new option hw indet) = true →
  logCb (d st) = Some cb →
  trace (Session.logCbAsync_handler st)
  = trace st ++ ((λ msg, EvLogCall cb (Session.log_object msg))
                   <$> batch_of key (logs_of ops))
  ∧ (∀ msg, msg ∈ batch_of key (logs_of ops) ↔
            latest key (key msg) (logs_of ops) = Some msg)
  ∧ (∀ msg, msg ∈ logs_of ops →
            ∃ msg', msg' ∈ batch_of key (logs_of ops) ∧ key msg' = key msg).
Proof.
  intros Hrun Hquiet Hcb.
  assert (Hbatch : Session.log_batch st = batch_of key (logs_of ops)).
  { unfold Session.log_batch, batch_of.
    rewrite (run_recentLogs key _ _ _ Hquiet Hrun). by destruct option. }
  split; [|split].
  - unfold Session.logCbAsync_handler. rewrite Hcb. simpl. by rewrite Hbatch.
  - intros msg. apply batch_of_elem_of.
  - intros msg Hin. destruct (latest_is_Some key _ _ Hin) as [msg' Hlast].
    exists msg'. apply latest_Some in Hlast as Hk. destruct Hk as [Hk _].
    split; [|done]. apply batch_of_elem_of. by rewrite Hk.
Qed.

(** X16: a Session without a frame source stays without one.  After
    construction from a value that is not an object nothing creates the
    frame source: in every state such a Session reaches, [d->pcap] is null,
    so [Session::start] and [Session::stop] dereference a null pointer, and
    no run that completes contains one of them. *)
Theorem no_frame_source_without_options option hw indet ops st :
  option = OptEmpty ∨ option = OptNotObject →
  Session.run key ops (Session.Session_new option hw indet) = Some st →
  pcap (d st) = None
  ∧ Session.start st = None
  ∧ Session.stop st = None
  ∧ Forall (λ op, op ≠ Session.OpStart ∧ op ≠ Session.OpStop) ops.
Proof.
  intros Hopt Hrun.
  assert (H0 : pcap (d (Session.Session_new option hw indet)) = None)
    by (by destruct Hopt as [-> | ->]).
  assert (Hgen : ∀ ops s s', pcap (d s) = None → Session.run key ops s = Some s' →
            pcap (d s') = None
            ∧ Forall (λ op, op ≠ Session.OpStart ∧ op ≠ Session.OpStop) ops).
  { clear. induction ops as [|op ops IH]; intros s s' Hp Hrun; simpl in Hrun.
    - by simplify_eq.
    - destruct (Session.step key op s) as [s1|] eqn:Hstep; simplify_eq/=.
      assert (Hop : pcap (d s1) = None
                    ∧ op ≠ Session.OpStart ∧ op ≠ Session.OpStop).
      { destruct op; simpl in Hstep;
          try (unfold Session.start, Session.stop in Hstep; rewrite Hp in Hstep;
               discriminate);
          invert_step Hstep; try done.
        - unfold Session.filter, Session.erase.
          destruct (filterThreads (d s) !! name); by case_bool_decide.
        - unfold Session.logCbAsync_handler. by destruct (logCb (d s)). }
      destruct Hop as [Hp1 Hop]. destruct (IH _ _ Hp1 Hrun) as [Hp' Hall].
      split; [done | by constructor]. }
  destruct (Hgen _ _ _ H0 Hrun) as [Hp Hall].
  unfold Session.start, Session.stop. rewrite Hp. done.
Qed.

End Provenance.

(** ** Threads and contexts over the life of a Session *)

Section Balance.
Variable key : LogMessage → string.

Lemma count_app w tr1 tr2 : count w (tr1 ++ tr2) = count w tr1 + count w tr2.
Proof. unfold count. by rewrite fmap_app, sum_list_with_app. Qed.

Lemma count_cons w e tr : count w (e :: tr) = w e + count w tr.
Proof. reflexivity. Qed.

Lemma count_replicate w n e : count w (replicate n e) = n * w e.
Proof.
  induction n as [|n IH]; [done|].
  change (count w (replicate (S n) e)) with (w e + count w (replicate n e)).
  rewrite IH. lia.
Qed.

Lemma count_zero w tr : Forall (λ e, w e = 0) tr → count w tr = 0.
Proof.
  induction 1 as [|e tr He _ IH]; [done|].
  change (count w (e :: tr)) with (w e + count w tr). by rewrite He, IH.
Qed.

Lemma balanced_same st st' evs :
  trace st' = trace st ++ evs →
  Forall weightless evs →
  filterThreads (d st') = filterThreads (d st) →
  threads (d st') = threads (d st) →
  dissectorThreads (d st') = dissectorThreads (d st) →
  balanced st → balanced st'.
Proof.
  intros Htr Hw Hf Ht Hd [H1 H2 H3].
  split; rewrite ?Htr, ?Hf, ?Ht, ?Hd, !count_app;
    repeat (rewrite (count_zero _ evs);
            [|eapply Forall_impl; [exact Hw|]; intros e He; apply He]);
    lia.
Qed.

Lemma balanced_erase ns0 script0 name st :
  configured ns0 script0 (threads (d st)) st →
  balanced st → balanced (Session.erase name st).
Proof.
  intros Hcfg [H1 H2 H3]. unfold Session.erase.
  destruct (filterThreads (d st) !! name) as [fc|] eqn:Hfc; [|by split].
  pose proof (size_delete_S _ _ _ Hfc) as Hsz.
  pose proof (cfg_group _ _ _ _ Hcfg _ _ Hfc) as Hshape.
  split; simpl; rewrite !count_app; unfold count at 2 4; simpl.
  - lia.
  - rewrite Hshape, length_replicate. nia.
  - lia.
Qed.

Lemma balanced_install name expr st :
  filterThreads (d st) !! name = None →
  balanced st → balanced (Session.install name expr st).
Proof.
  intros Hnone [H1 H2 H3].
  split; simpl; rewrite !count_app, !count_cons, !count_replicate; simpl;
    rewrite ?map_size_insert_None by done; nia.
Qed.

Lemma filter_keeps_config name expr st :
  threads (d (Session.filter name expr st)) = threads (d st)
  ∧ dissectorThreads (d (Session.filter name expr st)) = dissectorThreads (d st).
Proof.
  unfold Session.filter, Session.erase.
  destruct (filterThreads (d st) !! name); by case_bool_decide.
Qed.

Lemma balanced_filter ns0 script0 name expr st :
  configured ns0 script0 (threads (d st)) st →
  balanced st → balanced (Session.filter name expr st).
Proof.
  intros Hcfg Hbal. pose proof (balanced_erase _ _ name st Hcfg Hbal) as He.
  unfold Session.filter. case_bool_decide.
  - eapply (balanced_same (Session.erase name st)); [reflexivity| |reflexivity..|done].
    repeat constructor.
  - eapply (balanced_same (Session.install name expr (Session.erase name st)));
      [reflexivity| |reflexivity..|].
    + repeat constructor.
    + apply balanced_install; [apply erase_lookup | done].
Qed.

Lemma balanced_step ns0 script0 op st st' :
  Session.step key op st = Some st' →
  configured ns0 script0 (threads (d st)) st →
  balanced st → balanced st'.
Proof.
  intros Hstep Hcfg Hbal. destruct op; simpl in Hstep; invert_step Hstep;
    try (by eapply balanced_filter);
    try (by eapply (balanced_same st _ []);
            [simpl; by rewrite app_nil_r|constructor|done..]);
    try (by eapply (balanced_same st);
            [reflexivity|repeat constructor|done..]).
  - exact Hbal.
  - unfold Session.logCbAsync_handler. destruct (logCb (d st)); [|done].
    eapply (balanced_same st); [reflexivity| |done..].
    apply Forall_fmap, Forall_forall. intros msg _. repeat constructor.
Qed.

Lemma balanced_new option hw indet : balanced (Session.Session_new option hw indet).
Proof.
  destruct option; split; simpl; rewrite ?map_size_empty;
    rewrite ?count_app, ?count_replicate, ?length_replicate; unfold count; simpl; lia.
Qed.

Lemma balanced_reachable option hw indet ops st :
  Session.run key ops (Session.Session_new option hw indet) = Some st →
  balanced st.
Proof.
  intros Hrun.
  assert (H : configured (ns (d (Session.Session_new option hw indet)))
                (filterScript (d (Session.Session_new option hw indet)))
                (threads (d (Session.Session_new option hw indet))) st
              ∧ balanced st); [|by destruct H].
  eapply (run_invariant key (λ s, configured _ _ _ s ∧ balanced s));
    [|exact Hrun|split; [apply configured_new | apply balanced_new]].
  intros op s s' Hstep [Hcfg Hbal]. split; [by eapply configured_step|].
  eapply balanced_step; [done| |done].
  by rewrite (cfg_threads _ _ _ _ Hcfg).
Qed.

Lemma Private_destroy_trace st :
  trace (Session.Private_destroy st)
  = trace st
    ++ [EvQueueClose]
    ++ [EvDissectorThreadsDestroyed (length (dissectorThreads (d st)))]
    ++ Session.destroy_group_events (map_to_list (filterThreads (d st)))
    ++ (if streamDispatcher (d st) is Some _ then [EvStreamDispatcherDestroyed] else [])
    ++ (if pcap (d st) is Some _ then [EvPcapDestroyed] else [])
    ++ [EvUvClose StatusSignal; EvUvClose LogSignal].
Proof. unfold Session.Private_destroy. simpl. by rewrite <- !app_assoc. Qed.

Lemma count_destroy_group_events n (groups : list (string * FilterContext)) :
  Forall (λ g, length (fc_threads g.2) = n) groups →
  count w_context_new (Session.destroy_group_events groups) = 0
  ∧ count w_context_destroyed (Session.destroy_group_events groups) = length groups
  ∧ count w_filter_thread_new (Session.destroy_group_events groups) = 0
  ∧ count w_filter_thread_destroyed (Session.destroy_group_events groups)
    = length groups * n
  ∧ count w_dissector_thread_new (Session.destroy_group_events groups) = 0
  ∧ count w_dissector_thread_destroyed (Session.destroy_group_events groups) = 0.
Proof.
  induction 1 as [|g groups Hg _ IH]; [done|].
  change (Session.destroy_group_events (g :: groups))
    with (EvFilterContextDestroyed (fc_ctx g.2) (length (fc_threads g.2))
          :: Session.destroy_group_events groups).
  rewrite !count_cons. destruct IH as (-> & -> & -> & -> & -> & ->).
  simpl. rewrite Hg. repeat split; lia.
Qed.

Lemma foldr_delete_lookup (groups : list (string * FilterContext))
    (h : gmap addr FilterThread_Context) a :
  (∃ g, g ∈ groups ∧ fc_ctx g.2 = a) →
  foldr (λ g h, delete (fc_ctx g.2) h) h groups !! a = None.
Proof.
  induction groups as [|g groups IH]; intros (g0 & Hin & Ha).
  - by apply elem_of_nil in Hin.
  - simpl. destruct (decide (fc_ctx g.2 = a)) as [<-|Hne]; [apply lookup_delete_eq|].
    rewrite lookup_delete_ne by done. apply IH.
    apply elem_of_cons in Hin as [->|Hin]; [done|]. by exists g0.
Qed.

(** X17: nothing outlives the Session.  For every state a Session can
    reach, the trace up to the end of [~Private] creates exactly as many
    filter contexts as it destroys, as many filter threads, and as many
    dissector threads; and after the destructor no filter context is live,
    no group is installed and no dissector thread is left. *)
Theorem lifetime_balance option hw indet ops st :
  Session.run key ops (Session.Session_new option hw indet) = Some st →
  let st' := Session.Private_destroy st in
  count w_context_new (trace st') = count w_context_destroyed (trace st')
  ∧ count w_filter_thread_new (trace st') = count w_filter_thread_destroyed (trace st')
  ∧ count w_dissector_thread_new (trace st')
    = count w_dissector_thread_destroyed (trace st')
  ∧ heap st' = ∅
  ∧ filterThreads (d st') = ∅
  ∧ dissectorThreads (d st') = [].
Proof.
  intros Hrun st'.
  destruct (balanced_reachable _ _ _ _ _ Hrun) as [B1 B2 B3].
  destruct (configured_reachable key _ _ _ _ _ Hrun) as [_ _ C3 C4 _ C6].
  assert (Hshape : Forall (λ g : string * FilterContext,
                             length (fc_threads g.2) = Z.to_nat (threads (d st)))
                     (map_to_list (filterThreads (d st)))).
  { apply Forall_forall. intros [name fc] Hin%elem_of_map_to_list. simpl.
    rewrite (C4 _ _ Hin), length_replicate. by rewrite C3. }
  destruct (count_destroy_group_events _ _ Hshape) as (E1 & E2 & E3 & E4 & E5 & E6).
  rewrite length_map_to_list in E2, E4.
  assert (Htail : ∀ w,
            (∀ e, e ∈ [EvStreamDispatcherDestroyed; EvPcapDestroyed;
                       EvUvClose StatusSignal; EvUvClose LogSignal;
                       EvQueueClose] → w e = 0) →
            count w ((if streamDispatcher (d st) is Some _
                      then [EvStreamDispatcherDestroyed] else [])
                     ++ (if pcap (d st) is Some _ then [EvPcapDestroyed] else [])
                     ++ [EvUvClose StatusSignal; EvUvClose LogSignal]) = 0).
  { intros w Hw. apply count_zero.
    destruct (streamDispatcher (d st)), (pcap (d st)); simpl;
      repeat (constructor; [apply Hw; set_unfold; tauto|]); constructor. }
  assert (Hsplit : ∀ w,
            count w (trace (Session.Private_destroy st))
            = count w (trace st)
              + (w EvQueueClose
                 + (w (EvDissectorThreadsDestroyed (length (dissectorThreads (d st))))
                    + (count w (Session.destroy_group_events
                                  (map_to_list (filterThreads (d st))))
                       + count w ((if streamDispatcher (d st) is Some _
                                   then [EvStreamDispatcherDestroyed] else [])
                                  ++ (if pcap (d st) is Some _
                                      then [EvPcapDestroyed] else [])
                                  ++ [EvUvClose StatusSignal; EvUvClose LogSignal]))))).
  { intros w. rewrite Private_destroy_trace, count_app. f_equal.
    cbn [app]. by rewrite !count_cons, count_app. }
  assert (Hzero : ∀ w, In w [w_context_new; w_context_destroyed; w_filter_thread_new;
                            w_filter_thread_destroyed; w_dissector_thread_new;
                            w_dissector_thread_destroyed] →
            ∀ e, e ∈ [EvStreamDispatcherDestroyed; EvPcapDestroyed;
                      EvUvClose StatusSignal; EvUvClose LogSignal; EvQueueClose] →
                 w e = 0).
  { intros w Hw e He. simpl in Hw.
    repeat (apply elem_of_cons in He as [->|He];
            [repeat (destruct Hw as [<-|Hw]; [reflexivity|]); done|]).
    by apply elem_of_nil in He. }
  subst st'. rewrite !Hsplit, E1, E2, E3, E4, E5, E6.
  rewrite !Htail by (apply Hzero; simpl; tauto). simpl.
  split; [lia|]. split; [lia|]. split; [lia|]. split; [|done].
  - apply map_empty. intros a. unfold Session.Private_destroy. simpl.
    destruct (heap st !! a) as [c|] eqn:Hc.
    + apply foldr_delete_lookup. destruct (C6 _ _ Hc) as (name & fc & Hfc & Ha).
      exists (name, fc). split; [by apply elem_of_map_to_list | done].
    + clear -Hc. induction (map_to_list (filterThreads (d st))) as [|g l IH]; [done|].
      simpl. destruct (decide (fc_ctx g.2 = a)) as [<-|Hne]; [apply lookup_delete_eq|].
      by rewrite lookup_delete_ne.
Qed.

End Balance.

(** ** The thread count in use *)

Section ThreadCount.
Variable key : LogMessage → string.

(** X19: the configured thread count, wherever it is used.  For every
    configured count [n] other than [INT_MIN], in every state the Session
    reaches it keeps [max(1, n - 1)] threads: it has that many dissector
    threads, its stream dispatcher was given that count, every filter group
    installed in that state has that many threads, all on the group's own
    context, and every group [Session::filter] installs from that state
    gets that many. *)
Theorem thread_count_in_range o hw indet n ops st :
  opt_threads o = Some n →
  (INT_MIN < n ≤ INT_MAX)%Z →
  Session.run key ops (Session.Session_new (OptObject o) hw indet) = Some st →
  let t := Z.max 1 (n - 1) in
  threads (d st) = t
  ∧ length (dissectorThreads (d st)) = Z.to_nat t
  ∧ sd_threads <$> streamDispatcher (d st) = Some t
  ∧ (∀ name fc, filterThreads (d st) !! name = Some fc →
       length (fc_threads fc) = Z.to_nat t
       ∧ Forall (λ th, ft_ctx th = fc_ctx fc) (fc_threads fc))
  ∧ (∀ name expr, expr ≠ "" →
       ∃ fc, filterThreads (d (Session.filter name expr st)) !! name = Some fc
             ∧ length (fc_threads fc) = Z.to_nat t).
Proof.
  intros Hn Hrange Hrun t.
  set (st0 := Session.Session_new (OptObject o) hw indet) in *.
  assert (Hinit : threads (d st0) = t
                  ∧ length (dissectorThreads (d st0)) = Z.to_nat t
                  ∧ sd_threads <$> streamDispatcher (d st0) = Some t).
  { assert (Hx : "x" ≠ "") by discriminate.
    destruct (Session_new_threads o hw indet n "x" "x" Hn Hx) as (H1 & H2 & H3 & _).
    rewrite wrap32_id in H1, H2, H3
      by (unfold in_int, INT_MIN, INT_MAX in *; lia).
    done. }
  destruct Hinit as (Ht0 & Hd0 & Hs0).
  destruct (configured_reachable key _ _ _ _ _ Hrun) as [_ _ C3 C4 _ _].
  fold st0 in C3, C4. rewrite Ht0 in C3, C4.
  assert (Hfix : dissectorThreads (d st) = dissectorThreads (d st0)
                 ∧ streamDispatcher (d st) = streamDispatcher (d st0)).
  { eapply (run_invariant key
              (λ s, dissectorThreads (d s) = dissectorThreads (d st0)
                    ∧ streamDispatcher (d s) = streamDispatcher (d st0)));
      [|exact Hrun|done].
    intros op s s' Hstep [Ha Hb].
    destruct (step_fixed key _ _ _ Hstep) as [-> ->]. done. }
  destruct Hfix as [-> ->].
  split; [done|]. split; [done|]. split; [done|]. split.
  - intros name fc Hfc. rewrite (C4 _ _ Hfc), length_replicate.
    split; [done|]. apply Forall_forall. by intros th [-> _]%elem_of_replicate.
  - intros name expr Hexpr.
    assert (He : threads (d (Session.erase name st)) = t).
    { unfold Session.erase. by destruct (filterThreads (d st) !! name). }
    unfold Session.filter. rewrite bool_decide_eq_false_2 by done.
    eexists. split; [simpl; apply lookup_insert_eq|].
    simpl. by rewrite length_replicate, He.
Qed.

End ThreadCount.

(** ** The further properties at concrete inputs *)

Lemma even_session_reachable :
  Session.run LogMessage_key even_ops
    (Session.Session_new (OptObject example_options) 8 0) = Some even_session.
Proof. vm_compute. reflexivity. Defined.

Lemma Session_new_default_threads_witness :
  opt_threads options_without_threads = None
  ∧ (0 ≤ 0 ≤ INT_MAX)%Z
  ∧ threads (d (Session.Session_new (OptObject options_without_threads) 0 0)) = 1%Z
  ∧ length (dissectorThreads
              (d (Session.Session_new (OptObject options_without_threads) 0 0))) = 1.
Proof.
  assert (H0 : opt_threads options_without_threads = None) by reflexivity.
  assert (H1 : (0 ≤ 0 ≤ INT_MAX)%Z) by (unfold INT_MAX; lia).
  destruct (Session_new_default_threads options_without_threads 0 0 H0 H1)
    as (Ht & _ & Hl & _).
  split; [exact H0|]. split; [exact H1|]. split; [exact Ht | exact Hl].
Defined.

Lemma configuration_is_fixed_witness :
  Session.run LogMessage_key even_ops
    (Session.Session_new (OptObject example_options) 8 0) = Some even_session
  ∧ Session_ns even_session = "eth"
  ∧ filterScript (d even_session) = "filter.js"
  ∧ threads (d even_session) = 2%Z
  ∧ (∀ pkt, layer_ns (Session.raw_layer even_session pkt) = "eth").
Proof.
  destruct (configuration_is_fixed LogMessage_key _ _ _ _ _ even_session_reachable)
    as (Hn & Hs & Ht & _ & _ & Hl & _).
  split; [exact even_session_reachable|].
  split; [exact Hn|]. split; [exact Hs|]. split; [exact Ht | exact Hl].
Defined.

Lemma filter_group_shape_witness :
  Session.run LogMessage_key even_ops
    (Session.Session_new (OptObject example_options) 8 0) = Some even_session
  ∧ filterThreads (d even_session) !! "even" = Some even_group
  ∧ fc_threads even_group
    = replicate (Z.to_nat (threads (d even_session))) {| ft_ctx := fc_ctx even_group |}
  ∧ 1 ≤ length (fc_threads even_group).
Proof.
  assert (H1 : filterThreads (d even_session) !! "even" = Some even_group)
    by (vm_compute; reflexivity).
  destruct (filter_group_shape LogMessage_key _ _ _ _ _ _ _ even_session_reachable H1)
    as (Hs & _ & Hl).
  split; [exact even_session_reachable|]. split; [exact H1|].
  split; [exact Hs | exact (Hl _ eq_refl)].
Defined.

Lemma contexts_belong_to_groups_witness :
  Session.run LogMessage_key even_ops
    (Session.Session_new (OptObject example_options) 8 0) = Some even_session
  ∧ size (heap even_session) = size (filterThreads (d even_session))
  ∧ size (filterThreads (d even_session)) = 1.
Proof.
  destruct (contexts_belong_to_groups LogMessage_key _ _ _ _ _ even_session_reachable)
    as (_ & _ & Hs).
  split; [exact even_session_reachable|]. split; [exact Hs|].
  vm_compute. reflexivity.
Defined.

Lemma reads_are_safe_witness :
  Session.run LogMessage_key even_ops
    (Session.Session_new (OptObject example_options) 8 0) = Some even_session
  ∧ is_Some (Session.getFiltered "even" 1 11 even_session)
  ∧ is_Some (Session.statusCbAsync_handler even_session).
Proof.
  destruct (reads_are_safe LogMessage_key _ _ _ _ _ even_session_reachable)
    as (Hg & _ & Hs).
  split; [exact even_session_reachable|]. split; [exact (Hg "even" 1%Z 11%Z) | exact Hs].
Defined.

Lemma filter_keeps_other_groups_witness :
  Session.run LogMessage_key even_ops
    (Session.Session_new (OptObject example_options) 8 0) = Some even_session
  ∧ "even" ≠ "odd"
  ∧ Session.getFiltered "even" 1 11 (Session.filter "odd" "seq % 2 == 1" even_session)
    = Session.getFiltered "even" 1 11 even_session
  ∧ Session.getFiltered "even" 1 11 even_session = Some [2; 4]%Z.
Proof.
  assert (H1 : "even" ≠ "odd") by discriminate.
  destruct (filter_keeps_other_groups LogMessage_key _ _ _ _ _ "odd" "seq % 2 == 1"
              "even" even_session_reachable H1) as (_ & _ & Hg).
  split; [exact even_session_reachable|]. split; [exact H1|].
  split; [exact (Hg 1%Z 11%Z) | vm_compute; reflexivity].
Defined.

Lemma status_change_is_signalled_witness :
  Session.step LogMessage_key Session.OpStart even_session
  = Some (after [Session.OpStart] even_session)
  ∧ status_view (after [Session.OpStart] even_session) ≠ status_view even_session
  ∧ ∃ evs, trace (after [Session.OpStart] even_session) = trace even_session ++ evs
           ∧ EvAsyncSend StatusSignal ∈ evs.
Proof.
  assert (H0 : Session.step LogMessage_key Session.OpStart even_session
               = Some (after [Session.OpStart] even_session))
    by (vm_compute; reflexivity).
  assert (H1 : status_view (after [Session.OpStart] even_session)
               ≠ status_view even_session).
  { intros Heq. apply (f_equal (λ v, v.1.1)) in Heq. vm_compute in Heq. discriminate. }
  split; [exact H0|]. split; [exact H1|].
  exact (status_change_is_signalled LogMessage_key _ _ _ H0 H1).
Defined.

Lemma capturing_follows_start_stop_witness :
  Session.run LogMessage_key capture_ops
    (Session.Session_new (OptObject example_options) 8 0)
  = Some (after capture_ops example_session)
  ∧ capturing (d (after capture_ops example_session)) = capture_after capture_ops false
  ∧ capture_after capture_ops false = true.
Proof.
  assert (H0 : Session.run LogMessage_key capture_ops
                 (Session.Session_new (OptObject example_options) 8 0)
               = Some (after capture_ops example_session))
    by (vm_compute; reflexivity).
  destruct (capturing_follows_start_stop LogMessage_key _ _ _ _ _ H0) as (Hc & _).
  split; [exact H0|]. split; [exact Hc | vm_compute; reflexivity].
Defined.

Lemma store_written_by_packetCb_witness :
  Session.run LogMessage_key storing_ops even_session
  = Some (after storing_ops even_session)
  ∧ stored_of storing_ops = [raw_packet]
  ∧ store (d (after storing_ops even_session))
    = PacketStoreOps.insert raw_packet (store (d even_session)).
Proof.
  assert (H0 : Session.run LogMessage_key storing_ops even_session
               = Some (after storing_ops even_session)).
  { vm_compute. reflexivity. }
  destruct (store_written_by_packetCb LogMessage_key _ _ _ H0) as (Hs & _).
  split; [exact H0|]. split; [reflexivity | exact Hs].
Defined.

Lemma callbacks_as_installed_witness :
  Session.run LogMessage_key even_ops
    (Session.Session_new (OptObject example_options) 8 0) = Some even_session
  ∧ (∃ obj, EvStatusCall 7 obj ∈ trace even_session)
  ∧ (∀ cb obj, EvStatusCall cb obj ∈ trace even_session →
       Session.OpSetStatusCallback (Some cb) ∈ even_ops)
  ∧ (∀ cb obj, EvLogCall cb obj ∈ trace even_session →
       Session.OpSetLogCallback (Some cb) ∈ even_ops).
Proof.
  destruct (callbacks_as_installed LogMessage_key _ _ _ _ _ even_session_reachable)
    as (Hl & Hs & _).
  split; [exact even_session_reachable|]. split.
  - eexists. unfold even_session, after. vm_compute Session.run. cbn [default trace].
    repeat first [apply list_elem_of_here | apply list_elem_of_further].
  - split; [exact Hs|]. intros cb obj Hin. exact (proj1 (Hl cb obj Hin)).
Defined.

Lemma first_log_delivery_witness :
  Session.run LogMessage_key waiting_ops
    (Session.Session_new (OptObject example_options) 8 0)
  = Some (after waiting_ops example_session)
  ∧ no_delivery LogMessage_key waiting_ops
      (Session.Session_new (OptObject example_options) 8 0) = true
  ∧ logCb (d (after waiting_ops example_session)) = Some 9
  ∧ trace (Session.logCbAsync_handler (after waiting_ops example_session))
    = trace (after waiting_ops example_session)
      ++ ((λ msg, EvLogCall 9 (Session.log_object msg))
            <$> batch_of LogMessage_key (logs_of waiting_ops))
  ∧ length (batch_of LogMessage_key (logs_of waiting_ops)) = 2.
Proof.
  assert (H0 : Session.run LogMessage_key waiting_ops
                 (Session.Session_new (OptObject example_options) 8 0)
               = Some (after waiting_ops example_session))
    by (vm_compute; reflexivity).
  assert (H1 : no_delivery LogMessage_key waiting_ops
                 (Session.Session_new (OptObject example_options) 8 0) = true)
    by (vm_compute; reflexivity).
  assert (H2 : logCb (d (after waiting_ops example_session)) = Some 9)
    by (vm_compute; reflexivity).
  destruct (first_log_delivery LogMessage_key _ _ _ _ _ 9 H0 H1 H2) as (Ht & _).
  split; [exact H0|]. split; [exact H1|]. split; [exact H2|].
  split; [exact Ht | vm_compute; reflexivity].
Defined.

Lemma no_frame_source_without_options_witness :
  (OptNotObject = OptEmpty ∨ OptNotObject = OptNotObject)
  ∧ Session.run LogMessage_key bare_ops (Session.Session_new OptNotObject 8 0)
    = Some (after bare_ops (Session.Session_new OptNotObject 8 0))
  ∧ Session.start (after bare_ops (Session.Session_new OptNotObject 8 0)) = None
  ∧ Session.stop (after bare_ops (Session.Session_new OptNotObject 8 0)) = None.
Proof.
  assert (H0 : OptNotObject = OptEmpty ∨ OptNotObject = OptNotObject)
    by (right; reflexivity).
  assert (H1 : Session.run LogMessage_key bare_ops (Session.Session_new OptNotObject 8 0)
               = Some (after bare_ops (Session.Session_new OptNotObject 8 0)))
    by (vm_compute; reflexivity).
  destruct (no_frame_source_without_options LogMessage_key _ _ _ _ _ H0 H1)
    as (_ & Hs & Hp & _).
  split; [exact H0|]. split; [exact H1|]. split; [exact Hs | exact Hp].
Defined.

Lemma lifetime_balance_witness :
  Session.run LogMessage_key even_ops
    (Session.Session_new (OptObject example_options) 8 0) = Some even_session
  ∧ count w_context_new (trace (Session.Private_destroy even_session)) = 1
  ∧ count w_context_destroyed (trace (Session.Private_destroy even_session)) = 1
  ∧ count w_filter_thread_new (trace (Session.Private_destroy even_session))
    = count w_filter_thread_destroyed (trace (Session.Private_destroy even_session))
  ∧ count w_dissector_thread_new (trace (Session.Private_destroy even_session))
    = count w_dissector_thread_destroyed (trace (Session.Private_destroy even_session))
  ∧ heap (Session.Private_destroy even_session) = ∅.
Proof.
  destruct (lifetime_balance LogMessage_key _ _ _ _ _ even_session_reachable)
    as (_ & Hf & Hd & Hh & _).
  split; [exact even_session_reachable|].
  split; [vm_compute; reflexivity|]. split; [vm_compute; reflexivity|].
  split; [exact Hf|]. split; [exact Hd | exact Hh].
Defined.

Lemma status_callback_payload_plain_names_witness :
  Session.run LogMessage_key even_ops
    (Session.Session_new (OptObject example_options) 8 0) = Some even_session
  ∧ plain_names even_session
  ∧ ∃ st' obj, Session.step LogMessage_key Session.OpStatusAsync even_session = Some st'
               ∧ trace st' = trace even_session ++ [EvStatusCall 7 obj].
Proof.
  assert (H1 : plain_names even_session).
  { unfold plain_names. apply map_Forall_to_list.
    assert (Hl : map_to_list (filterThreads (d even_session)) = [("even", even_group)])
      by (vm_compute; reflexivity).
    rewrite Hl. repeat constructor. }
  assert (H2 : statusCb (d even_session) = Some 7) by (vm_compute; reflexivity).
  split; [exact even_session_reachable|]. split; [exact H1|].
  exact (proj2 (status_callback_payload_plain_names LogMessage_key _ _ _ _ _
                  even_session_reachable H1) 7 H2).
Defined.

Lemma thread_count_in_range_witness :
  opt_threads example_options = Some 3%Z
  ∧ (INT_MIN < 3 ≤ INT_MAX)%Z
  ∧ Session.run LogMessage_key even_ops
      (Session.Session_new (OptObject example_options) 8 0) = Some even_session
  ∧ threads (d even_session) = 2%Z
  ∧ length (dissectorThreads (d even_session)) = 2
  ∧ (∀ name fc, filterThreads (d even_session) !! name = Some fc →
       length (fc_threads fc) = 2)
  ∧ ∃ fc, filterThreads (d (Session.filter "odd" "seq % 2 == 1" even_session)) !! "odd"
          = Some fc
          ∧ length (fc_threads fc) = 2.
Proof.
  assert (H0 : opt_threads example_options = Some 3%Z) by reflexivity.
  assert (H1 : (INT_MIN < 3 ≤ INT_MAX)%Z) by (unfold INT_MIN, INT_MAX; lia).
  assert (H2 : "seq % 2 == 1" ≠ "") by discriminate.
  destruct (thread_count_in_range LogMessage_key example_options 8 0 3 even_ops
              even_session H0 H1 even_session_reachable) as (Ht & Hl & _ & Hg & Hi).
  split; [exact H0|]. split; [exact H1|]. split; [exact even_session_reachable|].
  split; [exact Ht|]. split; [exact Hl|]. split.
  - intros name fc Hfc. exact (proj1 (Hg name fc Hfc)).
  - exact (Hi "odd" "seq % 2 == 1" H2).
Defined.
